(** * Pairing-friendly curve generation: a shallow embedding

    The Python/Sage sources ([utils.py], [barreto_naehrig.py],
    [cocks_pinch.py], [WIP/mnt.py], [WIP/complex_multiplication.py]) are
    embedded function by function.

    Conventions of the embedding.
    - Python [int], Sage [Integer] and Sage [Rational] are exact numbers: the
      integers are [Z], the rationals are [Q] kept in lowest terms ([Qred]).
      Sage's [/] on integers is exact rational division.
    - [sqrt], [floor], [ceil] and [log2] of exact arguments are taken with
      their real-number meaning and computed with integer arithmetic
      ([Z.sqrt], floor division, comparisons of squares and powers of two).
    - [is_prime], [is_square], [is_squarefree], [kronecker] and
      [fundamental_discriminant] are the number-theoretic functions of those
      names, evaluated on the integer value of their argument.
    - In WIP/complex_multiplication.py [^] is exponentiation, as the Sage
      preparser reads it.
    - A Python exception is the outcome [Raise]; a [while] loop without a
      static bound takes a fuel argument and gives [Timeout] when it runs out.
    - [random()], [randint] and [random_element] read from an explicit list of
      samples that is threaded through the function. *)

From Stdlib Require Import ZArith QArith Qround Qabs Znumtheory List Bool Lia String.
From Stdlib Require Import Zpow_facts Qpower Lqa.
Import ListNotations.

Set Warnings "-deprecated".

Local Open Scope string_scope.
Local Open Scope list_scope.
Local Open Scope Z_scope.

(** ** Outcomes of a Python call *)

Inductive exn : Type :=
| AssertionError (msg : string)
| IndexError
| ZeroDivisionError
| ValueError
| TypeError
| ArithmeticError.

Inductive outcome (A : Type) : Type :=
| Ret (a : A)
| Raise (e : exn)
| Timeout.

Arguments Ret {A} a.
Arguments Raise {A} e.
Arguments Timeout {A}.

Definition bind {A B : Type} (m : outcome A) (k : A -> outcome B) : outcome B :=
  match m with
  | Ret a => k a
  | Raise e => Raise e
  | Timeout => Timeout
  end.

Declare Scope outcome_scope.
Delimit Scope outcome_scope with outcome.
Notation "x <- m ;; k" := (bind m (fun x => k))
  (at level 61, m at next level, right associativity) : outcome_scope.
Notation "' p <- m ;; k" := (bind m (fun p => k))
  (at level 61, p pattern, m at next level, right associativity) : outcome_scope.

Definition assert (b : bool) (msg : string) : outcome unit :=
  if b then Ret tt else Raise (AssertionError msg).

(** ** Integer helpers shared by the generators *)

(** [range(lo, hi)] *)
Definition range (lo hi : Z) : list Z :=
  map (fun k => lo + Z.of_nat k) (seq 0 (Z.to_nat (hi - lo))).

(** [range(lo, hi, step)] for a positive step *)
Definition range_step (lo hi step : Z) : list Z :=
  map (fun k => lo + step * Z.of_nat k)
      (seq 0 (Z.to_nat ((hi - lo + step - 1) / step))).

(** Sage [is_square] on an integer: negative numbers are not squares. *)
Definition is_square (n : Z) : bool :=
  (0 <=? n) && (Z.sqrt n * Z.sqrt n =? n).

(** Sage [is_prime] on an integer, by trial division up to the square root. *)
Fixpoint no_divisor_from (fuel : nat) (d n : Z) : bool :=
  match fuel with
  | O => true
  | S f =>
      if n <? d * d then true
      else if n mod d =? 0 then false
      else no_divisor_from f (d + 1) n
  end.

Definition is_prime (n : Z) : bool :=
  (2 <=? n) && no_divisor_from (Z.to_nat (Z.sqrt n)) 2 n.

(** ** Exact rationals (Sage [Rational]) *)

Definition qz (z : Z) : Q := inject_Z z.
Definition qadd (a b : Q) : Q := Qred (a + b).
Definition qsub (a b : Q) : Q := Qred (a - b).
Definition qmul (a b : Q) : Q := Qred (a * b).
Definition qsquare (a : Q) : Q := qmul a a.

(** exact division; Sage raises [ZeroDivisionError] on a zero divisor *)
Definition qdiv (a b : Q) : outcome Q :=
  if Qeq_bool b 0 then Raise ZeroDivisionError else Ret (Qred (a / b)).

(** [Rational.is_square]: in lowest terms, numerator and denominator are
    perfect squares (a negative rational is not a square). *)
Definition q_is_square (x : Q) : bool :=
  let r := Qred x in is_square (Qnum r) && is_square (Zpos (Qden r)).

(** [sqrt] of a rational that is a perfect square *)
Definition q_sqrt (x : Q) : Q :=
  let r := Qred x in Z.sqrt (Qnum r) # Z.to_pos (Z.sqrt (Zpos (Qden r))).

(** Python [int(x)]: truncation towards zero *)
Definition q_int (x : Q) : Z := Z.quot (Qnum x) (Zpos (Qden x)).

(** [floor(-sqrt(E))] for an integer [E >= 0] *)
Definition floor_neg_sqrt (E : Z) : Z :=
  if is_square E then - Z.sqrt E else - Z.sqrt E - 1.

(** [floor((P + sqrt(D)) / Qv)] for rationals [P], [Qv] and an integer
    [D >= 0].  With [P = pn/pd] and [Qv = qn/qd] the argument is
    [(pn*qd + sqrt((pd*qd)^2 * D)) / (pd*qn)]. *)
Definition floor_quad (P : Q) (D : Z) (Qv : Q) : outcome Z :=
  if D <? 0 then Raise TypeError
  else
    let num := Qnum P * Zpos (Qden Qv) in
    let k := Zpos (Qden P) * Zpos (Qden Qv) in
    let den := Zpos (Qden P) * Qnum Qv in
    let E := k * k * D in
    if den =? 0 then Raise ZeroDivisionError
    else if 0 <? den then Ret ((num + Z.sqrt E) / den)
    else Ret ((- num + floor_neg_sqrt E) / (- den)).

(** Python list indexing [l[i]], negative indices counting from the end *)
Definition idx {A : Type} (l : list A) (i : Z) : outcome A :=
  let j := if i <? 0 then Z.of_nat (List.length l) + i else i in
  if j <? 0 then Raise IndexError
  else match nth_error l (Z.to_nat j) with
       | Some a => Ret a
       | None => Raise IndexError
       end.

(** indexing a list whose slot may hold Python's [None]; arithmetic on
    [None] is a [TypeError] *)
Definition idx_some {A : Type} (l : list (option A)) (i : Z) : outcome A :=
  bind (idx l i) (fun o => match o with Some a => Ret a | None => Raise TypeError end).

(** ** WIP/mnt.py: the Pell equation solvers *)

Module Mnt.

Local Open Scope outcome_scope.

(** the five lists of [pell_solve_1] *)
Record cf_lists : Type := mk_cf {
  B : list Z;
  P : list (option Q);
  Qs : list (option Q);
  a : list (option Z);
  G : list Z
}.

(** one pass of the [while True] body of [pell_solve_1], with [i] already
    incremented *)
Definition cf_step (D : Z) (st : cf_lists) (i : Z) : outcome cf_lists :=
  a1 <- idx_some (a st) (i - 1) ;;
  q1 <- idx_some (Qs st) (i - 1) ;;
  p1 <- idx_some (P st) (i - 1) ;;
  let P' := P st ++ [Some (qsub (qmul (qz a1) q1) p1)] in
  pi <- idx_some P' i ;;
  qi_new <- qdiv (qsub (qz D) (qsquare pi)) q1 ;;
  let Qs' := Qs st ++ [Some qi_new] in
  pi <- idx_some P' i ;;
  qi <- idx_some Qs' i ;;
  ai_new <- floor_quad pi D qi ;;
  let a' := a st ++ [Some ai_new] in
  ai <- idx_some a' i ;;
  b1 <- idx (B st) (i - 1) ;;
  b2 <- idx (B st) (i - 2) ;;
  let B' := B st ++ [ai * b1 + b2] in
  ai <- idx_some a' i ;;
  g1 <- idx (G st) (i - 1) ;;
  g2 <- idx (G st) (i - 2) ;;
  let G' := G st ++ [ai * g1 + g2] in
  Ret (mk_cf B' P' Qs' a' G').

Fixpoint cf_loop (fuel : nat) (D : Z) (st : cf_lists) (i : Z)
  : outcome (cf_lists * Z) :=
  match fuel with
  | O => Timeout
  | S f =>
      let i := i + 1 in
      st' <- cf_step D st i ;;
      qi <- idx_some (Qs st') i ;;
      if Qeq_bool qi 1 && (i mod 2 =? 1) then Ret (st', i)
      else cf_loop f D st' i
  end.

(** the [for j in range(1, i)] loop collecting the solutions *)
Fixpoint collect (D m : Z) (st : cf_lists) (js : list Z) (sols : list (Q * Q))
  : outcome (list (Q * Q)) :=
  match js with
  | [] => Ret sols
  | j :: js' =>
      gj <- idx (G st) j ;;
      bj <- idx (B st) j ;;
      f2 <- qdiv (qz (gj ^ 2 - D * bj ^ 2)) (qz m) ;;
      if q_is_square f2 then
        let f := q_sqrt f2 in
        collect D m st js' (sols ++ [(qmul f (qz gj), qmul f (qz bj))])
      else collect D m st js' sols
  end.

Definition pell_solve_1 (fuel : nat) (D m : Z) : outcome (list (Q * Q)) :=
  _ <- assert (negb (m =? 0)) "" ;;
  _ <- assert (m * m <? D) "" ;;
  _ <- assert (negb (is_square D)) "" ;;
  let a1 := Z.sqrt D in
  let st := mk_cf [0; 1] [None; Some (qz 0)] [None; Some (qz 1)]
                  [None; Some a1] [1; a1] in
  '(st', i) <- cf_loop fuel D st 1 ;;
  collect D m st' (range 1 i) [].

(** [floor(sqrt(r))] and [ceil(sqrt(r))] of a rational; the square root of a
    negative number is not real and its floor is an error *)
Definition floor_sqrt_q (r : Q) : outcome Z :=
  if Qle_bool 0 r then Ret (Z.sqrt (Qfloor r)) else Raise TypeError.

Definition ceil_sqrt_q (r : Q) : outcome Z :=
  if Qle_bool 0 r then
    let c := Qceiling r in
    Ret (if is_square c then Z.sqrt c else Z.sqrt c + 1)
  else Raise ValueError.

(** the [for y in range(ceil(L1), floor(L2) + 1)] loop of [pell_solve_2] *)
Fixpoint scan (D m : Z) (ys : list Z) (sols : list (Q * Q)) : list (Q * Q) :=
  match ys with
  | [] => sols
  | y :: ys' =>
      let x2 := m + D * y ^ 2 in
      if is_square x2 then
        let x := Z.sqrt x2 in
        if negb (((- x * x - y * y * D) mod m =? 0) && ((2 * y * x) mod m =? 0))
        then scan D m ys' (sols ++ [(qz x, qz y)] ++ [(qz (- x), qz y)])
        else scan D m ys' (sols ++ [(qz x, qz y)])
      else scan D m ys' sols
  end.

Definition pell_solve_2 (fuel : nat) (D m : Z) : outcome (list (Q * Q)) :=
  _ <- assert (negb (m =? 0)) "" ;;
  _ <- assert (D <=? m ^ 2) "" ;;
  _ <- assert (negb (is_square D)) "" ;;
  s1 <- pell_solve_1 fuel D 1 ;;
  '(u, v) <- idx s1 0 ;;
  '(lo, hi) <-
    (if 0 <? m then
       r2 <- qdiv (qmul (qz m) (qsub u (qz 1))) (qz (2 * D)) ;;
       L2 <- floor_sqrt_q r2 ;;
       Ret (0, L2)
     else
       r1 <- qdiv (qz (- m)) (qz D) ;;
       L1 <- ceil_sqrt_q r1 ;;
       r2 <- qdiv (qmul (qz (- m)) (qadd v (qz 1))) (qz (2 * D)) ;;
       L2 <- floor_sqrt_q r2 ;;
       Ret (L1, L2)) ;;
  Ret (scan D m (range lo (hi + 1)) []).

(** ** WIP/mnt.py: the MNT (k = 6) generator *)

(** Sage [is_squarefree]: no square of a prime divides [n]; 0 is not
    squarefree *)
Definition is_squarefree (n : Z) : bool :=
  negb (n =? 0) &&
  forallb (fun d => negb (n mod (d * d) =? 0)) (range 2 (Z.sqrt (Z.abs n) + 1)).

(** [is_square(IntegerModRing(D)(a))]: [a] is a square in [Z/D] *)
Definition is_square_mod (a D : Z) : bool :=
  existsb (fun t => (t * t) mod D =? a mod D) (range 0 (Z.abs D)).

Definition q_is_prime (x : Q) : bool :=
  let r := Qred x in (Zpos (Qden r) =? 1) && is_prime (Qnum r).

(** [ceil(N / 2)] *)
Definition ceil_half (N : Z) : Z := - ((- N) / 2).

(** [2**e] *)
Definition pow2 (e : Z) : Q := Qpower (2 # 1) e.

(** [((N - 3) / 2) <= log2(l) < ((N - 2) / 2)]; [math.log2] raises on a
    non-positive argument *)
Definition log2_window (N : Z) (l : Q) : outcome bool :=
  if Qle_bool l 0 then Raise ValueError
  else Ret (Qle_bool (pow2 (N - 3)) (qsquare l)
            && negb (Qle_bool (pow2 (N - 2)) (qsquare l))).

Definition triple : Type := Q * Q * Q.

(** [q = 4 * l**2 + 1] *)
Definition q_of (l : Q) : Q := qadd (qmul (qz 4) (qsquare l)) (qz 1).

(** [n = 4 * l**2 - remainder * 2 * l + 1] *)
Definition n_of (remainder : Z) (l : Q) : Q :=
  qadd (qsub (qmul (qz 4) (qsquare l))
             (qmul (qmul (qz remainder) (qz 2)) l)) (qz 1).

(** [l = (x - remainder) / 6] *)
Definition l_of (remainder : Z) (x : Q) : Q :=
  Qred ((x - qz remainder) / (6 # 1)).

(** the return value [(q, n, D / 3)] *)
Definition answer (remainder D : Z) (l : Q) : triple :=
  (q_of l, n_of remainder l, Qred (D # 3)).

(** first [while abs(x) <= 2**ceil(N / 2)] loop; [Ret None] is the loop
    ending without a [return] *)
Fixpoint orbit_up (fuel : nat) (N D remainder : Z) (u v x y : Q)
  : outcome (option triple) :=
  match fuel with
  | O => Timeout
  | S f =>
      if Qle_bool (Qabs x) (pow2 (ceil_half N)) then
        let l := l_of remainder x in
        w <- log2_window N l ;;
        if w && (q_is_prime (q_of l) && q_is_prime (n_of remainder l))
        then Ret (Some (answer remainder D l))
        else
          let old_x := x in
          let x := qadd (qmul x u) (qmul (qmul y v) (qz D)) in
          let y := qadd (qmul old_x v) (qmul u y) in
          orbit_up f N D remainder u v x y
      else Ret None
  end.

(** second loop, stepping the other way and leaving on a negative [l] *)
Fixpoint orbit_down (fuel : nat) (N D remainder : Z) (u v x y : Q)
  : outcome (option triple) :=
  match fuel with
  | O => Timeout
  | S f =>
      if Qle_bool (Qabs x) (pow2 (ceil_half N)) then
        let l := l_of remainder x in
        if negb (Qle_bool 0 l) then Ret None
        else
          w <- log2_window N l ;;
          if w && (q_is_prime (q_of l) && q_is_prime (n_of remainder l))
          then Ret (Some (answer remainder D l))
          else
            let old_x := x in
            let x := qsub (qmul x u) (qmul (qmul y v) (qz D)) in
            let y := qsub (qmul u y) (qmul old_x v) in
            orbit_down f N D remainder u v x y
      else Ret None
  end.

(** [remainder = int(x) % 6; if remainder == 5: remainder = -1] *)
Definition remainder_of (x : Q) : Z :=
  let r := q_int x mod 6 in if r =? 5 then -1 else r.

Definition unit_remainder (r : Z) : bool := (r =? 1) || (r =? -1).

(** the body of [for D in range(9, 3 * z + 1, 24)]; [Ret None] stands for
    falling through to the next [D] *)
Definition try_D (fuel : nat) (N D : Z) : outcome (option triple) :=
  if negb (is_squarefree (D / 3)) || is_square D then Ret None
  else if negb (is_square_mod (-2) D) then Ret None
  else
    sols <- (if 64 <? D then pell_solve_1 fuel D (-8)
             else pell_solve_2 fuel D (-8)) ;;
    match sols with
    | [] => Ret None
    | (x0, y0) :: _ =>
        s1 <- pell_solve_1 fuel D 1 ;;
        '(u, v) <- idx s1 0 ;;
        let remainder := remainder_of x0 in
        r1 <- (if unit_remainder remainder
               then orbit_up fuel N D remainder u v x0 y0
               else Ret None) ;;
        match r1 with
        | Some t => Ret (Some t)
        | None =>
            let x := qsub (qmul x0 u) (qmul (qmul y0 v) (qz D)) in
            let y := qsub (qmul u y0) (qmul x0 v) in
            let remainder := remainder_of x in
            if unit_remainder remainder
            then orbit_down fuel N D remainder u v x y
            else Ret None
        end
    end.

Fixpoint gen_curve_for (fuel : nat) (N : Z) (Ds : list Z)
  : outcome (option triple) :=
  match Ds with
  | [] => Ret None
  | D :: rest =>
      r <- try_D fuel N D ;;
      match r with
      | Some t => Ret (Some t)
      | None => gen_curve_for fuel N rest
      end
  end.

Definition gen_curve (fuel : nat) (N z : Z) : outcome (option triple) :=
  gen_curve_for fuel N (range_step 9 (3 * z + 1) 24).

(** the script: [q, n, D = gen_curve(args.N, args.z); print(q, n, D)];
    unpacking [None] is a [TypeError] *)
Definition main (fuel : nat) (N z : Z) : outcome triple :=
  r <- gen_curve fuel N z ;;
  match r with
  | Some t => Ret t
  | None => Raise TypeError
  end.

(** [(x, y)] solves [x^2 - D*y^2 = m] *)
Definition pell_eq (D m : Z) (s : Q * Q) : Prop :=
  (fst s * fst s - qz D * (snd s * snd s) == qz m)%Q.

(** the shape of the five lists of [pell_solve_1] when the loop body starts
    for the [(i+1)]-th time: [i + 2] entries each, the last [P], [Q] and [a]
    defined *)
Definition cf_shape (st : cf_lists) (i : nat)
    (lb : list Z) (b2 b1 : Z) (lp : list (option Q)) (pv : Q)
    (lq : list (option Q)) (qv : Q) (la : list (option Z)) (av : Z)
    (lg : list Z) (g2 g1 : Z) : Prop :=
  B st = lb ++ [b2; b1] /\ P st = lp ++ [Some pv]
  /\ Qs st = lq ++ [Some qv] /\ a st = la ++ [Some av]
  /\ G st = lg ++ [g2; g1]
  /\ List.length lb = i /\ List.length lg = i
  /\ List.length lp = S i /\ List.length lq = S i /\ List.length la = S i.

(** the lists are ready for the next pass of the loop body: the last [Q] is
    nonzero *)
Definition cf_ready (st : cf_lists) (i : nat) : Prop :=
  exists lb b2 b1 lp pv lq qv la av lg g2 g1,
    cf_shape st i lb b2 b1 lp pv lq qv la av lg g2 g1 /\ ~ (qv == 0)%Q.

(** [(-1)^k] *)
Definition sign (k : nat) : Q := if Nat.even k then qz 1 else qz (-1).

(** the norms of the last two convergents [G/B], in terms of the last
    entries of [P], [Q] and [a]:
    [G[k]^2 - D*B[k]^2 = (-1)^k * Q[k+1]] and the two identities that carry
    it to the next pass *)
Definition cf_norms (D : Z) (st : cf_lists) (k : nat) : Prop :=
  exists lb b2 b1 lp pv lq qv la av lg g2 g1,
    cf_shape st k lb b2 b1 lp pv lq qv la av lg g2 g1 /\ ~ (qv == 0)%Q
    /\ (qz g2 * qz g2 - qz D * (qz b2 * qz b2) == sign k * qv)%Q
    /\ (qz g1 * qz g2 - qz D * (qz b1 * qz b2)
        == sign k * (qz av * qv - pv))%Q
    /\ ((qz g1 * qz g1 - qz D * (qz b1 * qz b1)) * qv
        == - sign k * (qz D - (qz av * qv - pv) * (qz av * qv - pv)))%Q.

(** a pair of integers with a non-negative second component *)
Definition integer_pair (s : Q * Q) : Prop :=
  exists xz yz, s = (qz xz, qz yz) /\ 0 <= yz.

(** what a pair returned by [pell_solve_1] satisfies: its norm is
    [f2^2 * m] for the perfect-square quotient [f2] found by the loop *)
Definition scaled_pell_eq (D m : Z) (s : Q * Q) : Prop :=
  exists f2 : Q,
    q_is_square f2 = true /\
    (fst s * fst s - qz D * (snd s * snd s) == f2 * f2 * qz m)%Q.

End Mnt.

(** ** Number theory used by the CM and Cocks-Pinch generators *)

(** number of factors 2 of a nonzero integer, and its odd part *)
Fixpoint split2 (fuel : nat) (v a : Z) : Z * Z :=
  match fuel with
  | O => (v, a)
  | S f => if (a =? 0) || Z.odd a then (v, a) else split2 f (v + 1) (a / 2)
  end.

Definition remove_twos (a : Z) : Z * Z :=
  split2 (S (Z.to_nat (Z.log2 (Z.abs a)))) 0 a.

(** [(2/n)] for odd [n]: [(-1)^((n^2 - 1)/8)] *)
Definition two_symbol (n : Z) : Z :=
  let r := n mod 8 in if (r =? 1) || (r =? 7) then 1 else -1.

(** the Legendre symbol [(a/q)] of an odd prime [q], by its definition: 0 if
    [q] divides [a], 1 if [a] is a nonzero square modulo [q], -1 otherwise *)
Definition legendre (a q : Z) : Z :=
  if a mod q =? 0 then 0
  else if existsb (fun t => (t * t) mod q =? a mod q) (range 1 q) then 1
  else -1.

(** [(a/2)]: 0 for even [a], else 1 or -1 as [a = +-1] or [+-3 (mod 8)] *)
Definition kronecker_two (a : Z) : Z :=
  if Z.even a then 0 else two_symbol a.

(** [(a/q)] for a prime [q] *)
Definition prime_symbol (a q : Z) : Z :=
  if q =? 2 then kronecker_two a else legendre a q.

(** the product of [(a/q)] over the prime factors [q] of [b >= 1], found
    by trial division from [d] upwards *)
Fixpoint kronecker_loop (fuel : nat) (a d b : Z) : Z :=
  match fuel with
  | O => 1
  | S f =>
      if b =? 1 then 1
      else if b <? d * d then prime_symbol a b
      else if b mod d =? 0 then prime_symbol a d * kronecker_loop f a d (b / d)
      else kronecker_loop f a (d + 1) b
  end.

(** Sage [kronecker(a, b)]: the Kronecker symbol [(a/b)], by its definition
    as the product of [(a/-1)] (when [b < 0]) and of the symbols of the prime
    factors of [|b|]; [(a/0)] is 1 for [a = +-1] and 0 otherwise *)
Definition kronecker (a b : Z) : Z :=
  if b =? 0 then (if Z.abs a =? 1 then 1 else 0)
  else
    (if (b <? 0) && (a <? 0) then -1 else 1)
    * kronecker_loop (S (Z.to_nat (Z.abs b + Z.log2 (Z.abs b)))) a 2 (Z.abs b).

(** the same symbol by the binary algorithm (reciprocity and removal of
    factors 2): steps 3 and 4, for odd [b > 0] *)
Fixpoint jacobi_loop (fuel : nat) (a b k : Z) : Z :=
  match fuel with
  | O => 0
  | S f =>
      if a =? 0 then (if 1 <? b then 0 else k)
      else
        let '(v, a') := remove_twos a in
        let k := if Z.odd v then two_symbol b * k else k in
        let k := if (a' mod 4 =? 3) && (b mod 4 =? 3) then - k else k in
        let r := Z.abs a' in
        jacobi_loop f (b mod r) r k
  end.

Definition kronecker_binary (a b : Z) : Z :=
  if negb (Z.gcd a b =? 1) then 0
  else if b =? 0 then 1
  else
    let '(v, b') := remove_twos b in
    let k := if Z.even v then 1 else two_symbol a in
    let k := if (b' <? 0) && (a <? 0) then - k else k in
    jacobi_loop (S (Z.to_nat (2 * Z.log2 (Z.abs a) + 2))) a (Z.abs b') k.

(** [Integer.squarefree_part]: divide out every square factor *)
Fixpoint squarefree_loop (fuel : nat) (d x : Z) : Z :=
  match fuel with
  | O => x
  | S f =>
      if x <? d * d then x
      else if x mod (d * d) =? 0 then squarefree_loop f d (x / (d * d))
      else squarefree_loop f (d + 1) x
  end.

Definition squarefree_part (D : Z) : Z :=
  Z.sgn D * squarefree_loop (S (Z.to_nat (Z.abs D))) 2 (Z.abs D).

(** Sage [fundamental_discriminant]:
    [D = D.squarefree_part(); if D % 4 == 1: return D; return 4 * D] *)
Definition fundamental_discriminant (D : Z) : Z :=
  let D := squarefree_part D in
  if D mod 4 =? 1 then D else 4 * D.

(** [-Integer(Mod(k, r))] for a sample [k = int(random() * 1000)] *)
Definition candidate (k r : Z) : Z := - (k mod Z.abs r).

(** the discriminant search in the words of the specification: the first
    candidate of the sequence whose Kronecker symbol is 1 *)
Definition first_accepted (r : Z) (Ds : list Z) : option Z :=
  find (fun D => kronecker D r =? 1) Ds.

(** [power_mod(a, e, n)] *)
Definition power_mod (a e n : Z) : Z := (a ^ e) mod n.

(** ** Prime fields and curves (the capabilities of section 1) *)

(** inverse in [GF(p)] by the extended Euclidean algorithm: the invariant is
    [r0 = s0 * b (mod p)] and [r1 = s1 * b (mod p)] *)
Fixpoint egcd_inv (fuel : nat) (r0 s0 r1 s1 : Z) : Z :=
  match fuel with
  | O => s0
  | S f => if r1 =? 0 then s0
           else egcd_inv f r1 s1 (r0 mod r1) (s0 - (r0 / r1) * s1)
  end.

Definition gf_inv (p b : Z) : Z :=
  (egcd_inv (S (Z.to_nat p)) (b mod p) 1 p 0) mod p.

(** division in [GF(p)] *)
Definition gf_div (p a b : Z) : outcome Z :=
  if b mod p =? 0 then Raise ZeroDivisionError
  else Ret ((a * gf_inv p b) mod p).

(** a curve [y^2 = x^3 + a4*x + a6] over [GF(p)] *)
Record EllipticCurve : Type := mk_curve {
  base_field_order : Z;
  a4 : Z;
  a6 : Z
}.

(** [EllipticCurve(GF(p), [a4, a6])]; Sage refuses a singular curve *)
Definition elliptic_curve (p c4 c6 : Z) : outcome EllipticCurve :=
  if (16 * (4 * c4 ^ 3 + 27 * c6 ^ 2)) mod p =? 0 then Raise ArithmeticError
  else Ret (mk_curve p (c4 mod p) (c6 mod p)).

(** [E.order()]: the number of points of [E] over [GF(p)], the point at
    infinity included *)
Definition affine_points (E : EllipticCurve) : list (Z * Z) :=
  let p := base_field_order E in
  filter (fun xy => (snd xy * snd xy) mod p
                    =? (fst xy ^ 3 + a4 E * fst xy + a6 E) mod p)
         (list_prod (range 0 p) (range 0 p)).

Definition order (E : EllipticCurve) : Z :=
  1 + Z.of_nat (List.length (affine_points E)).

(** a point: [None] is the point at infinity *)
Definition point : Type := option (Z * Z).

(** ** utils.py *)

Module Utils.

(** [(E.base_field().order() ** k - 1) % E.order() == 0] *)
Definition is_embedding_degree (E : EllipticCurve) (k : Z) : bool :=
  (base_field_order E ^ k - 1) mod order E =? 0.

(** the curve [y^2 = x^3 + 2] over [GF(7)]; it has 9 points *)
Definition E7 : EllipticCurve := mk_curve 7 0 2.

End Utils.

(** ** The curve construction shared by complex_multiplication.py (lines
    79-86) and cocks_pinch.py (lines 79-86) *)

(** the coefficient list handed to [EllipticCurve] for a j-invariant [j0] and
    a twist parameter [c], both elements of [GF(p)] *)
Definition curve_coefficients (p j0 c : Z) : outcome (Z * Z) :=
  if j0 mod p =? 0 then Ret (0, c)
  else if j0 mod p =? 1728 mod p then Ret (c, 0)
  else
    bind (gf_div p (3 * c ^ 2 * j0) (1728 - j0)) (fun c4 =>
    bind (gf_div p (2 * c ^ 3 * j0) (1728 - j0)) (fun c6 =>
    Ret (c4, c6))).

Definition curve_from_j (p j0 c : Z) : outcome EllipticCurve :=
  bind (curve_coefficients p j0 c) (fun '(c4, c6) => elliptic_curve p c4 c6).

(** ** WIP/complex_multiplication.py *)

Module ComplexMultiplication.

Local Open Scope outcome_scope.

(** the [while not kronecker(D, r) == 1] loop; the list holds the values of
    [int(random() * 1000)] still to come *)
Fixpoint resample (r D : Z) (rnd : list Z) : outcome Z :=
  if kronecker D r =? 1 then Ret D
  else match rnd with
       | [] => Timeout
       | k :: rnd' => resample r (candidate k r) rnd'
       end.

Definition choose_random_fundamental_discriminant (r : Z) (rnd : list Z)
  : outcome Z :=
  match rnd with
  | [] => Timeout
  | k :: rnd' =>
      D <- resample r (candidate k r) rnd' ;;
      let D := fundamental_discriminant D in
      if negb (kronecker D r =? 1) then Ret 0 else Ret D
  end.

(** [ZZ(f.roots()[0][0])] for [f = x^2 - D] over [GF(p)].  Sage lists the
    roots in the order of the sorted linear factors [x + c], so the first
    root is the one with the smallest [c = p - root]: the larger root. *)
Definition find_sqrt (p D : Z) : outcome Z :=
  if negb (is_prime p) then Raise ValueError
  else match find (fun t => (t * t) mod p =? D mod p) (rev (range 0 p)) with
       | Some t => Ret t
       | None => Raise IndexError
       end.



(** [t < p ^ (.5)] *)
Definition below_sqrt (t p : Z) : bool := (t <? 0) || (t * t <? p).

(** the [while True: n, t = t, n % t; if t < bound: break] loop *)
Fixpoint euclid_loop (fuel : nat) (p n t : Z) : outcome Z :=
  match fuel with
  | O => Timeout
  | S f =>
      if t =? 0 then Raise ZeroDivisionError
      else
        let t' := n mod t in
        if below_sqrt t' p then Ret t' else euclid_loop f p t t'
  end.

(** [((p - t^2) / d) ^ (.5) in ZZ] and the value [ZZ(...)] *)
Definition integer_sqrt_of_quotient (p t d : Z) : outcome (option Z) :=
  v <- qdiv (qz (p - t ^ 2)) (qz d) ;;
  if (Zpos (Qden v) =? 1) && is_square (Qnum v)
  then Ret (Some (Z.sqrt (Qnum v)))
  else Ret None.

Definition cornacchia (fuel : nat) (p d : Z) : outcome (option (Z * Z)) :=
  if kronecker (- d) p =? 1 then
    t <- find_sqrt p (- d) ;;
    t <- euclid_loop fuel p p t ;;
    y <- integer_sqrt_of_quotient p t d ;;
    match y with
    | Some y => Ret (Some (t, y))
    | None => Ret None
    end
  else Ret None.

(** [abs(N - (p + 1)) <= 2 * sqrt(p)] *)
Definition hasse_bound (p N : Z) : bool := (N - (p + 1)) ^ 2 <=? 4 * p.

Section Generator.

(** [hilbert_class_polynomial(-D).any_root(GF(p))], given [-D] and [p] *)
Variable class_polynomial_root : Z -> Z -> outcome Z.

(** steps g) and h) and [G.order()]: a random point [G] of [E] with
    [G <> 0] and [r*G <> 0], replaced by [r*G], and its order *)
Variable cofactor_point : EllipticCurve -> Z -> outcome (point * Z).

(** the [while True] loop of [gen_curve]; the list holds the values of
    [GF(p).random_element()] still to come *)
Fixpoint twist_loop (p r j0 : Z) (cs : list Z)
  : outcome (EllipticCurve * point) :=
  match cs with
  | [] => Timeout
  | c :: cs' =>
      if c mod p =? 0 then twist_loop p r j0 cs'
      else
        E <- curve_from_j p j0 c ;;
        '(G, n) <- cofactor_point E r ;;
        if is_prime n then Ret (E, G) else twist_loop p r j0 cs'
  end.

(** everything after the three assertions *)
Definition search (p n r : Z) (D : option Z) (cs : list Z)
  : outcome (EllipticCurve * point) :=
  match D with
  | None => Raise TypeError
  | Some D =>
      j0 <- class_polynomial_root (- D) p ;;
      twist_loop p r j0 cs
  end.

Definition gen_curve (p n r : Z) (D : option Z) (cs : list Z)
  : outcome (EllipticCurve * point) :=
  _ <- assert (is_prime p) "p has to be prime!" ;;
  _ <- assert (is_prime n) "n has to be prime!" ;;
  let N := r * n in
  _ <- assert (hasse_bound p N) "Hasse bound is not satisfied!" ;;
  search p n r D cs.

(** the script: [E, G = gen_curve(args.p, args.n, args.r)], with the default
    [D=None] *)
Definition main (p n r : Z) (cs : list Z) : outcome (EllipticCurve * point) :=
  gen_curve p n r None cs.

End Generator.

End ComplexMultiplication.

(** ** cocks_pinch.py *)

Module CocksPinch.

Local Open Scope outcome_scope.

(** the [while not p % B == 1] loop of [find_prime]; the list holds the
    values of [random_prime(2 ** num_bits, lbound=2 ** (num_bits - 1))] still
    to come *)
Fixpoint find_prime_loop (B p : Z) (rnd : list Z) : outcome Z :=
  if B =? 0 then Raise ZeroDivisionError
  else if p mod B =? 1 then Ret p
  else match rnd with
       | [] => Timeout
       | q :: rnd' => find_prime_loop B q rnd'
       end.

Definition find_prime (num_bits B : Z) (rnd : list Z) : outcome Z :=
  find_prime_loop B 0 rnd.

(** what [random_prime(2 ** num_bits, lbound=2 ** (num_bits - 1))] promises
    of a value it returns *)
Definition random_prime_sample (num_bits q : Z) : Prop :=
  prime q /\ 2 ^ (num_bits - 1) <= q <= 2 ^ num_bits.

(** the [while not kronecker(D, n) == 1] loop, starting from [D = 0] *)
Fixpoint resample (n D : Z) (rnd : list Z) : outcome Z :=
  if kronecker D n =? 1 then Ret D
  else match rnd with
       | [] => Timeout
       | k :: rnd' => resample n (candidate k n) rnd'
       end.

Definition find_fundamental_discriminant (n : Z) (rnd : list Z) : outcome Z :=
  D <- resample n 0 rnd ;;
  let D := fundamental_discriminant D in
  _ <- assert (kronecker D n =? 1) "" ;;
  Ret D.

(** the value of [g] in [order]: the integer [h] at first, an element of
    [Z/p] after the first [Mod(g * h, p)] *)
Inductive gval : Type :=
| GInt (z : Z)
| GMod (z : Z).

Definition g_lift (g : gval) : Z := match g with GInt z | GMod z => z end.

(** [g == 1] *)
Definition g_is_one (p : Z) (g : gval) : bool :=
  match g with
  | GInt z => z =? 1
  | GMod z => z mod p =? 1 mod p
  end.

(** the [for _ in range(1, k)] loop of [order] *)
Fixpoint order_loop (h p : Z) (steps : list Z) (b : bool) (g : gval)
  : bool * gval :=
  match steps with
  | [] => (b, g)
  | _ :: steps' =>
      let b := b && negb (g_is_one p g) in
      let g := GMod ((g_lift g * h) mod p) in
      order_loop h p steps' b g
  end.

(** the nested function [order(h, k, p)] *)
Definition order_test (h k p : Z) : bool :=
  let '(b, g) := order_loop h p (range 1 k) true (GInt h) in
  b && g_is_one p g.


(** the [while not order(h, B, n)] loop; the list holds the values of
    [randint(2, n - 1)] still to come *)
Fixpoint order_search (B n h : Z) (rnd : list Z) : outcome Z :=
  if order_test h B n then Ret h
  else match rnd with
       | [] => Timeout
       | a :: rnd' => order_search B n (power_mod a ((n - 1) / B) n) rnd'
       end.

Definition find_element_of_order (B n : Z) (rnd : list Z) : outcome Z :=
  if B =? 0 then Raise ZeroDivisionError
  else
    _ <- assert (n mod B =? 1) "" ;;
    order_search B n 0 rnd.

End CocksPinch.

(** ** barreto_naehrig.py *)

Module BarretoNaehrig.

Local Open Scope outcome_scope.

(** [P(u) = 36u^4 + 36u^3 + 24u^2 + 6u + 1] *)
Definition P (u : Z) : Z := 36 * u ^ 4 + 36 * u ^ 3 + 24 * u ^ 2 + 6 * u + 1.

(** Python [int.bit_length] *)
Definition bit_length (z : Z) : Z :=
  if z =? 0 then 0 else Z.log2 (Z.abs z) + 1.

(** [int(-(2**(m / 4)) / sqrt(6))]: minus the floor of the fourth root of
    [2^m / 36] *)
Definition initial_u (m : Z) : Z := - Z.sqrt (Z.sqrt (2 ^ m / 36)).

(** the local variables that survive a [yield]; [n] is unbound until the
    scan assigns it *)
Record locals : Type := mk_locals {
  u : Z;
  p : Z;
  n : option Z;
  found_curve : bool
}.

(** the inner [while p.bit_length() <= p_max] loop *)
Fixpoint scan (fuel : nat) (p_max : Z) (st : locals) : outcome locals :=
  match fuel with
  | O => Timeout
  | S f =>
      if bit_length (p st) <=? p_max then
        let t := 6 * (u st * u st) + 1 in
        let p1 := P (- u st) in
        let n1 := p1 + 1 - t in
        if is_prime p1 && is_prime n1
        then Ret (mk_locals (u st) p1 (Some n1) true)
        else
          let p2 := P (u st) in
          let n2 := p2 + 1 - t in
          if is_prime p2 && is_prime n2
          then Ret (mk_locals (u st) p2 (Some n2) true)
          else scan f p_max (mk_locals (u st + 1) p2 (Some n2) (found_curve st))
      else Ret st
  end.

(** a yielded value: the tuple [(p, E, n, G)], or Python's [None] *)
Definition yielded : Type := option (Z * EllipticCurve * Z * point).

(** what one [next()] on the generator produces; [return None] inside a
    generator ends the iteration and yields nothing *)
Inductive resumed : Type :=
| Yield (curve : yielded) (st : locals)
| StopIteration.

Section Generator.

(** steps f) to k) and the embedding-degree assertion: the curve
    [y^2 = x^3 + b] over [GF(p)] and the base point [G = (1, y0)], for the
    first [b] with [n*G = 0] *)
Variable find_curve : Z -> Z -> outcome (EllipticCurve * point).

(** the generator object just created by [gen_curve(m, p_max)] *)
Definition gen_curve (m : Z) : locals :=
  let u := initial_u m in mk_locals u (P (- u)) None false.

(** one pass of the outer [while True], up to the [yield] or the [return] *)
Definition next (fuel : nat) (p_max : Z) (st : locals) : outcome resumed :=
  st <- scan fuel p_max st ;;
  if negb (found_curve st) then Ret StopIteration
  else
    match n st with
    | None => Raise TypeError
    | Some nv =>
        '(E, G) <- find_curve (p st) nv ;;
        Ret (Yield (Some (p st, E, nv, G))
                   (mk_locals (u st + 1) (p st) (n st) true))
    end.

(** how the script ends: the lines printed to standard output, the exit
    status, and the exception that ended it, if any (an uncaught exception
    ends a Python script with status 1) *)
Record finished : Type := mk_finished {
  stdout : list string;
  exit_status : Z;
  uncaught : option exn
}.

(** [print(E)] *)
Variable show : EllipticCurve -> string.

(** the [for curve in curves] loop of the script; [rounds] bounds the number
    of passes *)
Fixpoint main_loop (rounds fuel : nat) (p_max remaining_curves : Z)
    (st : locals) (out : list string) : outcome finished :=
  match rounds with
  | O => Timeout
  | S k =>
      match next fuel p_max st with
      | Timeout => Timeout
      | Raise e => Ret (mk_finished out 1 (Some e))
      | Ret StopIteration => Ret (mk_finished out 0 None)
      | Ret (Yield None _) =>
          Ret (mk_finished (out ++ ["No curve found with given parameters!"])
                           1 None)
      | Ret (Yield (Some (_, E, _, _)) st') =>
          let out := out ++ [show E] in
          let remaining_curves := remaining_curves - 1 in
          if remaining_curves =? 0 then Ret (mk_finished out 0 None)
          else main_loop k fuel p_max remaining_curves st' out
      end
  end.

Definition main (rounds fuel : nat) (num_curves m p_max : Z) : outcome finished :=
  main_loop rounds fuel p_max num_curves (gen_curve m) [].

End Generator.

End BarretoNaehrig.

(** * Properties *)

(** ** Basic facts about the helpers *)

Lemma bind_Ret_inv {A B} (m : outcome A) (k : A -> outcome B) (b : B) :
  bind m k = Ret b -> exists a, m = Ret a /\ k a = Ret b.
Proof.
  destruct m as [a| |]; simpl; intros H; try discriminate.
  exists a; split; [reflexivity | exact H].
Qed.

Lemma in_range lo hi k : In k (range lo hi) <-> lo <= k < hi.
Proof.
  unfold range. rewrite in_map_iff. split.
  - intros (j & <- & Hj). apply in_seq in Hj. lia.
  - intros H. exists (Z.to_nat (k - lo)). split; [lia|].
    apply in_seq. lia.
Qed.

Lemma in_range_step lo hi step k :
  0 < step -> In k (range_step lo hi step) ->
  lo <= k < hi /\ (k - lo) mod step = 0.
Proof.
  intros Hs. unfold range_step. rewrite in_map_iff.
  intros (j & <- & Hj). apply in_seq in Hj.
  assert (Hq : Z.of_nat j < (hi - lo + step - 1) / step) by lia.
  assert (Hd := Z.mul_div_le (hi - lo + step - 1) step Hs).
  split; [split; nia|].
  replace (lo + step * Z.of_nat j - lo) with (Z.of_nat j * step) by ring.
  apply Z_mod_mult.
Qed.

Lemma is_square_spec n : is_square n = true <-> exists s, 0 <= s /\ s * s = n.
Proof.
  unfold is_square. rewrite andb_true_iff, Z.leb_le, Z.eqb_eq. split.
  - intros [H0 H]. exists (Z.sqrt n). split; [apply Z.sqrt_nonneg | exact H].
  - intros (s & Hs & <-). split; [nia|].
    rewrite Z.sqrt_square by exact Hs. reflexivity.
Qed.

Lemma no_divisor_from_sound fuel d n :
  2 <= d -> Z.sqrt n < d + Z.of_nat fuel ->
  no_divisor_from fuel d n = true ->
  forall k, d <= k -> k * k <= n -> n mod k <> 0.
Proof.
  revert d. induction fuel as [|f IH]; intros d Hd Hf H k Hk Hkk.
  - exfalso. assert (k <= Z.sqrt n) by (apply Z.sqrt_le_square; nia). lia.
  - simpl in H. destruct (Z.ltb_spec n (d * d)) as [Hlt|Hge].
    + exfalso. nia.
    + destruct (Z.eqb_spec (n mod d) 0) as [E|E]; [discriminate|].
      destruct (Z.eq_dec k d) as [->|Hne]; [exact E|].
      apply (IH (d + 1)); [lia | lia | exact H | lia | exact Hkk].
Qed.

Lemma no_divisor_from_complete fuel d n :
  2 <= d ->
  (forall k, d <= k -> k * k <= n -> n mod k <> 0) ->
  no_divisor_from fuel d n = true.
Proof.
  revert d. induction fuel as [|f IH]; intros d Hd H; [reflexivity|].
  simpl. destruct (Z.ltb_spec n (d * d)) as [Hlt|Hge]; [reflexivity|].
  destruct (Z.eqb_spec (n mod d) 0) as [E|E].
  - exfalso. apply (H d); [lia | lia | exact E].
  - apply IH; [lia|]. intros k Hk. apply H. lia.
Qed.

Lemma is_prime_spec n : is_prime n = true <-> prime n.
Proof.
  unfold is_prime. rewrite andb_true_iff, Z.leb_le. split.
  - intros [H2 H].
    assert (Hs : forall k, 2 <= k -> k * k <= n -> n mod k <> 0).
    { apply (no_divisor_from_sound (Z.to_nat (Z.sqrt n)) 2 n); [lia | | exact H].
      pose proof (Z.sqrt_nonneg n). lia. }
    apply prime_alt. split; [lia|].
    intros k Hk Hdiv.
    destruct Hdiv as [c Hc].
    assert (Hcpos : 0 < c) by nia.
    destruct (Z_le_gt_dec (k * k) n) as [Hle|Hgt].
    + apply (Hs k); [lia | exact Hle |].
      rewrite Hc. apply Z_mod_mult.
    + assert (Hc2 : 2 <= c) by nia.
      apply (Hs c); [exact Hc2 | nia |].
      rewrite Hc, Z.mul_comm. apply Z_mod_mult.
  - intros Hp. pose proof (prime_ge_2 _ Hp) as H2. split; [exact H2|].
    apply no_divisor_from_complete; [lia|].
    intros k Hk Hkk Hmod.
    apply Z.mod_divide in Hmod; [|lia].
    assert (Hk1 : 1 < k < n) by nia.
    destruct (prime_divisors _ Hp _ Hmod) as [E|[E|[E|E]]]; lia.
Qed.

(** ** Pell solvers *)

Module MntFacts.
Import Mnt.

Lemma scan_sound D m ys : forall sols,
  Forall (pell_eq D m) sols -> Forall (pell_eq D m) (scan D m ys sols).
Proof.
  induction ys as [|y ys IH]; intros sols Hs; [exact Hs|].
  cbn [scan]. cbv zeta.
  destruct (is_square (m + D * y ^ 2)) eqn:Esq; [|apply IH; exact Hs].
  apply is_square_spec in Esq. destruct Esq as (s & Hs0 & Hss).
  assert (Hroot : Z.sqrt (m + D * y ^ 2) = s).
  { rewrite <- Hss. apply Z.sqrt_square. exact Hs0. }
  rewrite Hroot.
  assert (Hpos : pell_eq D m (qz s, qz y)).
  { unfold pell_eq, qz, Qeq; simpl. nia. }
  assert (Hneg : pell_eq D m (qz (- s), qz y)).
  { unfold pell_eq, qz, Qeq; simpl. nia. }
  destruct (negb _); apply IH; rewrite ?Forall_app; repeat split;
    auto using Forall_nil, Forall_cons.
Qed.

(** Every pair returned by Algorithm 2 solves the equation exactly. *)
Lemma pell_solve_2_sound fuel D m sols :
  pell_solve_2 fuel D m = Ret sols -> Forall (pell_eq D m) sols.
Proof.
  unfold pell_solve_2. intros H.
  repeat first
    [ apply bind_Ret_inv in H; destruct H as (? & _ & H)
    | match type of H with
      | (let '(_, _) := ?p in _) = _ => destruct p
      end ].
  injection H as <-. apply scan_sound. constructor.
Qed.

(** C5: [pell_solve_1(2, 1)] returns a list that contains [(3, 2)], and
    [(3, 2)] solves [x^2 - 2*y^2 = 1]. *)
Theorem pell_solve_1_2_1_has_minimal_solution :
  exists sols, pell_solve_1 10 2 1 = Ret sols /\
               In (qz 3, qz 2) sols /\ pell_eq 2 1 (qz 3, qz 2).
Proof.
  exists [(qz 3, qz 2)]. split; [vm_compute; reflexivity|].
  split; [left; reflexivity | reflexivity].
Qed.

(** C1 (failing input): [pell_solve_1(21, 1)] satisfies the preconditions
    ([m <> 0], [21 > 1], 21 not a square) and returns
    [(10, 2), (46, 10), (55, 12)]; the first two pairs have
    [x^2 - 21*y^2 = 16], not 1.  The convergent [(5, 1)] has
    [5^2 - 21 = 4 = 2^2 * m], and the code scales it by [f = 2]. *)
Theorem pell_solve_1_21_1_wrong_pairs :
  pell_solve_1 10 21 1 = Ret [(qz 10, qz 2); (qz 46, qz 10); (qz 55, qz 12)]
  /\ ~ pell_eq 21 1 (qz 10, qz 2)
  /\ ~ pell_eq 21 1 (qz 46, qz 10)
  /\ pell_eq 21 1 (qz 55, qz 12).
Proof.
  split; [vm_compute; reflexivity|].
  repeat split; unfold pell_eq; simpl; try (intros H; vm_compute in H; discriminate).
Qed.

(** The same defect with a fractional scale: [pell_solve_1(17, 4)] returns
    [(33/2, 4)], for which [x^2 - 17*y^2 = 1/4]. *)
Lemma pell_solve_1_17_4_fraction :
  pell_solve_1 10 17 4 = Ret [(33 # 2, qz 4)] /\ ~ pell_eq 17 4 (33 # 2, qz 4).
Proof.
  split; [vm_compute; reflexivity|].
  unfold pell_eq; simpl. intros H; vm_compute in H; discriminate.
Qed.

(** [floor_quad] is the floor of [(P + sqrt(D))/Qv] for a positive [Qv]:
    with [num], [den] and [E] as in its definition, the result [a]
    satisfies [a*den - num <= sqrt(E) < (a + 1)*den - num]. *)
Lemma floor_quad_is_floor P D Qv a :
  0 <= D -> 0 < Qnum Qv -> floor_quad P D Qv = Ret a ->
  let num := Qnum P * Zpos (Qden Qv) in
  let den := Zpos (Qden P) * Qnum Qv in
  let E := (Zpos (Qden P) * Zpos (Qden Qv)) * (Zpos (Qden P) * Zpos (Qden Qv)) * D in
  (a * den - num <= 0 \/ (a * den - num) ^ 2 <= E)
  /\ 0 < (a + 1) * den - num
  /\ E < ((a + 1) * den - num) ^ 2.
Proof.
  intros HD HQ. unfold floor_quad.
  destruct (Z.ltb_spec D 0) as [C|_]; [lia|]. cbv zeta.
  set (num := Qnum P * Z.pos (Qden Qv)).
  set (den := Z.pos (Qden P) * Qnum Qv).
  set (E := Z.pos (Qden P) * Z.pos (Qden Qv) * (Z.pos (Qden P) * Z.pos (Qden Qv)) * D).
  assert (Hden : 0 < den) by (unfold den; nia).
  destruct (Z.eqb_spec den 0) as [C|_]; [lia|].
  destruct (Z.ltb_spec 0 den) as [_|C]; [|lia].
  intros H. injection H as <-.
  assert (HE : 0 <= E) by (unfold E; nia).
  pose proof (Z.sqrt_spec E HE) as Hs. cbv zeta in Hs.
  pose proof (Z.sqrt_nonneg E) as Hr.
  pose proof (Z.mul_div_le (num + Z.sqrt E) den Hden) as H1.
  pose proof (Z.mul_succ_div_gt (num + Z.sqrt E) den Hden) as H2.
  set (a := (num + Z.sqrt E) / den) in *.
  split; [|split].
  - destruct (Z_le_gt_dec (a * den - num) 0) as [L|G]; [left; exact L|].
    right. nia.
  - nia.
  - nia.
Qed.

(** [sqrt] of a perfect-square rational is its square root *)
Lemma q_sqrt_square x : q_is_square x = true -> (q_sqrt x * q_sqrt x == x)%Q.
Proof.
  unfold q_is_square, q_sqrt. intros H. apply andb_true_iff in H.
  destruct H as [Hn Hd].
  apply Qeq_trans with (Qred x); [|apply Qred_correct].
  destruct (Qred x) as [n d]. cbn [Qnum Qden] in *.
  apply is_square_spec in Hn, Hd.
  destruct Hn as (s & Hs & <-). destruct Hd as (t & Ht & Htt).
  rewrite Z.sqrt_square by exact Hs.
  assert (Hroot : Z.sqrt (Z.pos d) = t).
  { rewrite <- Htt. apply Z.sqrt_square. exact Ht. }
  rewrite Hroot. assert (Htpos : 0 < t) by nia.
  unfold Qeq, Qmult. cbn [Qnum Qden]. rewrite Pos2Z.inj_mul.
  rewrite Z2Pos.id by exact Htpos. rewrite <- Htt. ring.
Qed.

(** What Algorithm 1 returns: every pair has norm [f2^2 * m], where [f2] is
    the perfect-square quotient [(G_j^2 - D*B_j^2)/m]. *)
Lemma collect_scaled D m st js : forall sols out,
  Forall (scaled_pell_eq D m) sols ->
  collect D m st js sols = Ret out ->
  Forall (scaled_pell_eq D m) out.
Proof.
  induction js as [|j js IH]; intros sols out Hs H.
  - injection H as <-. exact Hs.
  - cbn [collect] in H.
    apply bind_Ret_inv in H. destruct H as (gj & _ & H).
    apply bind_Ret_inv in H. destruct H as (bj & _ & H).
    apply bind_Ret_inv in H. destruct H as (f2 & Hf2 & H).
    destruct (q_is_square f2) eqn:Esq; [|eapply IH; eassumption].
    eapply IH; [|exact H]. apply Forall_app. split; [exact Hs|].
    constructor; [|constructor].
    exists f2. split; [exact Esq|]. cbn [fst snd].
    pose proof (q_sqrt_square f2 Esq) as Hf.
    unfold qdiv in Hf2. destruct (Qeq_bool (qz m) 0) eqn:Em; [discriminate|].
    assert (Hf2' : Qred (qz (gj ^ 2 - D * bj ^ 2) / qz m) = f2) by congruence.
    clear Hf2. rename Hf2' into Hf2.
    assert (Hm : ~ (qz m == 0)%Q).
    { intros C. apply Qeq_bool_iff in C. congruence. }
    assert (Hq : (f2 * qz m == qz (gj ^ 2 - D * bj ^ 2))%Q).
    { rewrite <- Hf2.
      apply Qeq_trans with (qz (gj ^ 2 - D * bj ^ 2) / qz m * qz m)%Q;
        [|field; exact Hm].
      apply Qmult_comp; [apply Qred_correct | reflexivity]. }
    unfold qmul.
    rewrite (Qred_correct (q_sqrt f2 * qz gj)),
            (Qred_correct (q_sqrt f2 * qz bj)).
    assert (Hsplit : (qz (gj ^ 2 - D * bj ^ 2)
                      == qz gj * qz gj - qz D * (qz bj * qz bj))%Q).
    { unfold qz. rewrite <- !inject_Z_mult.
      unfold Qminus. rewrite <- inject_Z_opp, <- inject_Z_plus.
      apply inject_Z_injective. ring. }
    transitivity (q_sqrt f2 * q_sqrt f2
                  * (qz gj * qz gj - qz D * (qz bj * qz bj)))%Q; [ring|].
    rewrite Hf, <- Hsplit, <- Hq. ring.
Qed.

Lemma pell_solve_1_scaled fuel D m sols :
  pell_solve_1 fuel D m = Ret sols -> Forall (scaled_pell_eq D m) sols.
Proof.
  unfold pell_solve_1. intros H.
  repeat first
    [ apply bind_Ret_inv in H; destruct H as (? & _ & H)
    | match type of H with
      | (let '(_, _) := ?p in _) = _ => destruct p
      end ].
  eapply collect_scaled; [|exact H]. constructor.
Qed.

(** ** The MNT generator never reaches its [return] statements *)

Lemma qsquare_eq l : (qsquare l == l * l)%Q.
Proof. unfold qsquare, qmul. apply Qred_correct. Qed.

Lemma l_of_eq r x : (l_of r x == (x - qz r) / (6 # 1))%Q.
Proof. unfold l_of. apply Qred_correct. Qed.

Lemma q_of_eq l : (q_of l == (4 # 1) * (l * l) + 1)%Q.
Proof.
  unfold q_of, qadd, qmul, qz. rewrite !Qred_correct, qsquare_eq. reflexivity.
Qed.

Lemma q_is_prime_ge_2 x : q_is_prime x = true -> (2 <= x)%Q.
Proof.
  unfold q_is_prime. intros H. apply andb_true_iff in H. destruct H as [Hd Hp].
  apply Z.eqb_eq in Hd. apply is_prime_spec, prime_ge_2 in Hp.
  rewrite <- (Qred_correct x). destruct (Qred x) as [n d]; simpl in *.
  unfold Qle; simpl. injection Hd as ->. lia.
Qed.

Lemma log2_window_true N l :
  log2_window N l = Ret true ->
  (0 < l /\ pow2 (N - 3) <= l * l /\ l * l < pow2 (N - 2))%Q.
Proof.
  unfold log2_window. destruct (Qle_bool l 0) eqn:E0; [discriminate|].
  intros H. injection H as H. apply andb_true_iff in H. destruct H as [Hlo Hhi].
  apply Qle_bool_iff in Hlo. apply negb_true_iff in Hhi.
  rewrite qsquare_eq in Hlo.
  split; [|split].
  - apply Qnot_le_lt. intros C. apply Qle_bool_iff in C. congruence.
  - exact Hlo.
  - apply Qnot_le_lt. intros C. rewrite <- qsquare_eq in C.
    apply Qle_bool_iff in C. congruence.
Qed.

Lemma ceil_half_double N : 2 * ceil_half N <= N + 1.
Proof. unfold ceil_half. Z.to_euclidean_division_equations. lia. Qed.

(** Inside the loop guard [abs(x) <= 2**ceil(N/2)], the bit-length window on
    [l = (x - remainder)/6] and the primality of [q = 4*l^2 + 1] can hold
    together only for [N = 1], [remainder = -1] (where [l = 1/2]). *)
Lemma guard_window_clash N r x :
  r = 1 \/ r = -1 ->
  Qle_bool (Qabs x) (pow2 (ceil_half N)) = true ->
  log2_window N (l_of r x) = Ret true ->
  q_is_prime (q_of (l_of r x)) = true ->
  N = 1 /\ r = -1.
Proof.
  intros Hr Hg Hw Hq.
  apply Qle_bool_iff in Hg. apply log2_window_true in Hw.
  destruct Hw as (Hl & Hlo & Hhi).
  apply q_is_prime_ge_2 in Hq. rewrite q_of_eq in Hq.
  pose proof (l_of_eq r x) as El. set (l := l_of r x) in *.
  assert (Ex : (x == (6 # 1) * l + qz r)%Q) by (rewrite El; field).
  set (T := pow2 (ceil_half N)) in *.
  assert (HT : (0 < T)%Q) by (apply Qpower_0_lt; reflexivity).
  assert (HTT : (T * T <= (16 # 1) * (l * l))%Q).
  { assert (E1 : (T * T == pow2 (ceil_half N + ceil_half N))%Q).
    { unfold T, pow2. rewrite Qpower_plus; [reflexivity | discriminate]. }
    assert (E2 : (pow2 (N + 1) == (16 # 1) * pow2 (N - 3))%Q).
    { unfold pow2. replace (N + 1) with (4 + (N - 3)) by ring.
      rewrite Qpower_plus; [reflexivity | discriminate]. }
    assert (L1 : (pow2 (ceil_half N + ceil_half N) <= pow2 (N + 1))%Q).
    { unfold pow2. apply Qpower_le_compat_l; [|discriminate].
      pose proof (ceil_half_double N). lia. }
    rewrite E1. eapply Qle_trans; [exact L1|]. rewrite E2. lra. }
  assert (HT4 : (T <= (4 # 1) * l)%Q) by nra.
  pose proof (Qle_Qabs x) as Habs.
  assert (Hx4 : ((6 # 1) * l + qz r <= (4 # 1) * l)%Q).
  { rewrite <- Ex. lra. }
  assert (Hr1 : r = -1).
  { destruct Hr as [->| ->]; [|reflexivity]. exfalso.
    change (qz 1) with 1%Q in Hx4. lra. }
  subst r. change (qz (-1)) with (- (1))%Q in Hx4.
  assert (Hhalf : (l == 1 # 2)%Q) by nra.
  rewrite Hhalf in Hlo, Hhi.
  change ((1 # 2) * (1 # 2))%Q with (pow2 (-2)) in Hlo, Hhi.
  unfold pow2 in Hlo, Hhi.
  apply Qpower_le_compat_l_inv in Hlo; [|reflexivity].
  apply Qpower_lt_compat_l_inv in Hhi; [|reflexivity].
  split; [lia | reflexivity].
Qed.

Lemma orbit_up_no_triple fuel : forall N D r u v x y t,
  r = 1 \/ r = -1 -> ~ (N = 1 /\ r = -1) ->
  orbit_up fuel N D r u v x y <> Ret (Some t).
Proof.
  induction fuel as [|f IH]; intros N D r u v x y t Hr HN; [discriminate|].
  cbn [orbit_up]. cbv zeta.
  destruct (Qle_bool (Qabs x) (pow2 (ceil_half N))) eqn:Eg; [|discriminate].
  destruct (log2_window N (l_of r x)) as [w| |] eqn:Ew; try discriminate.
  cbn [bind].
  destruct w; cbn [andb]; [|apply IH; assumption].
  destruct (q_is_prime (q_of (l_of r x))) eqn:Eq;
    cbn [andb]; [|apply IH; assumption].
  exfalso. apply HN. eapply guard_window_clash; eassumption.
Qed.

Lemma orbit_down_no_triple fuel : forall N D r u v x y t,
  r = 1 \/ r = -1 -> ~ (N = 1 /\ r = -1) ->
  orbit_down fuel N D r u v x y <> Ret (Some t).
Proof.
  induction fuel as [|f IH]; intros N D r u v x y t Hr HN; [discriminate|].
  cbn [orbit_down]. cbv zeta.
  destruct (Qle_bool (Qabs x) (pow2 (ceil_half N))) eqn:Eg; [|discriminate].
  destruct (negb (Qle_bool 0 (l_of r x))); [discriminate|].
  destruct (log2_window N (l_of r x)) as [w| |] eqn:Ew; try discriminate.
  cbn [bind].
  destruct w; cbn [andb]; [|apply IH; assumption].
  destruct (q_is_prime (q_of (l_of r x))) eqn:Eq;
    cbn [andb]; [|apply IH; assumption].
  exfalso. apply HN. eapply guard_window_clash; eassumption.
Qed.

(** For [N = 1] and [remainder = -1] the first pass of either loop already
    leaves it: [int(x) % 6 = 5] and [abs(x) <= 2] force [-2 < x <= -1], so
    [l <= 0]. *)
Lemma first_pass_l_nonpos x :
  remainder_of x = -1 ->
  Qle_bool (Qabs x) (pow2 (ceil_half 1)) = true ->
  (l_of (-1) x <= 0)%Q.
Proof.
  unfold remainder_of. intros Hrem Hg.
  assert (H5 : q_int x mod 6 = 5).
  { destruct (Z.eqb_spec (q_int x mod 6) 5) as [E|E]; [exact E|].
    pose proof (Z.mod_pos_bound (q_int x) 6 ltac:(lia)). lia. }
  apply Qle_bool_iff in Hg. change (pow2 (ceil_half 1)) with (2 # 1)%Q in Hg.
  apply Qabs_Qle_condition in Hg. destruct Hg as [Hlo Hhi].
  rewrite l_of_eq.
  assert (Hx : (x <= - (1))%Q).
  { destruct x as [n d]. unfold q_int in H5. unfold Qle in *; simpl in *.
    assert (Hq : -2 <= n ÷ Z.pos d <= 2).
    { split; [apply Z.quot_le_lower_bound | apply Z.quot_le_upper_bound]; lia. }
    assert (Hq1 : n ÷ Z.pos d = -1).
    { revert H5. generalize (n ÷ Z.pos d) Hq. intros k Hk.
      assert (k = -2 \/ k = -1 \/ k = 0 \/ k = 1 \/ k = 2) as Hc by lia.
      destruct Hc as [->|[->|[->|[->| ->]]]]; cbn; intros; try discriminate.
      reflexivity. }
    clear H5 Hq. Z.to_euclidean_division_equations. nia. }
  change (qz (-1)) with (- (1))%Q.
  apply Qle_shift_div_r; [reflexivity|]. lra.
Qed.

Lemma log2_window_nonpos N l : (l <= 0)%Q -> log2_window N l = Raise ValueError.
Proof.
  intros H. unfold log2_window. apply Qle_bool_iff in H. rewrite H. reflexivity.
Qed.

Lemma orbit_up_first_pass fuel D u v x y t :
  remainder_of x = -1 ->
  orbit_up fuel 1 D (-1) u v x y <> Ret (Some t).
Proof.
  intros Hrem. destruct fuel as [|f]; [discriminate|].
  cbn [orbit_up]. cbv zeta.
  destruct (Qle_bool (Qabs x) (pow2 (ceil_half 1))) eqn:Eg; [|discriminate].
  rewrite log2_window_nonpos by (apply first_pass_l_nonpos; assumption).
  discriminate.
Qed.

Lemma orbit_down_first_pass fuel D u v x y t :
  remainder_of x = -1 ->
  orbit_down fuel 1 D (-1) u v x y <> Ret (Some t).
Proof.
  intros Hrem. destruct fuel as [|f]; [discriminate|].
  cbn [orbit_down]. cbv zeta.
  destruct (Qle_bool (Qabs x) (pow2 (ceil_half 1))) eqn:Eg; [|discriminate].
  destruct (negb (Qle_bool 0 (l_of (-1) x))); [discriminate|].
  rewrite log2_window_nonpos by (apply first_pass_l_nonpos; assumption).
  discriminate.
Qed.

Lemma unit_remainder_cases r : unit_remainder r = true -> r = 1 \/ r = -1.
Proof.
  unfold unit_remainder. intros H. apply orb_true_iff in H.
  destruct H as [H|H]; apply Z.eqb_eq in H; auto.
Qed.

Lemma orbit_up_from_start fuel N D u v x y t :
  unit_remainder (remainder_of x) = true ->
  orbit_up fuel N D (remainder_of x) u v x y <> Ret (Some t).
Proof.
  intros Hu. pose proof (unit_remainder_cases _ Hu) as Hr.
  destruct (Z.eq_dec N 1) as [->|HN].
  - destruct (Z.eq_dec (remainder_of x) (-1)) as [E|E].
    + rewrite E. apply orbit_up_first_pass. exact E.
    + apply orbit_up_no_triple; [exact Hr | tauto].
  - apply orbit_up_no_triple; [exact Hr | tauto].
Qed.

Lemma orbit_down_from_start fuel N D u v x y t :
  unit_remainder (remainder_of x) = true ->
  orbit_down fuel N D (remainder_of x) u v x y <> Ret (Some t).
Proof.
  intros Hu. pose proof (unit_remainder_cases _ Hu) as Hr.
  destruct (Z.eq_dec N 1) as [->|HN].
  - destruct (Z.eq_dec (remainder_of x) (-1)) as [E|E].
    + rewrite E. apply orbit_down_first_pass. exact E.
    + apply orbit_down_no_triple; [exact Hr | tauto].
  - apply orbit_down_no_triple; [exact Hr | tauto].
Qed.

Lemma try_D_no_triple fuel N D t : try_D fuel N D <> Ret (Some t).
Proof.
  unfold try_D.
  destruct (negb (is_squarefree (D / 3)) || is_square D); [discriminate|].
  destruct (negb (is_square_mod (-2) D)); [discriminate|].
  destruct (if 64 <? D then pell_solve_1 fuel D (-8) else pell_solve_2 fuel D (-8))
    as [sols| |]; try discriminate.
  cbn [bind]. destruct sols as [|[x0 y0] rest]; [discriminate|].
  destruct (pell_solve_1 fuel D 1) as [s1| |]; try discriminate.
  cbn [bind]. destruct (idx s1 0) as [[u v]| |]; try discriminate.
  cbn [bind]. cbv zeta.
  destruct (unit_remainder (remainder_of x0)) eqn:E1.
  - destruct (orbit_up fuel N D (remainder_of x0) u v x0 y0) as [[t'|]| |] eqn:Eo;
      try discriminate; cbn [bind].
    + exfalso. eapply orbit_up_from_start; eassumption.
    + match goal with
      | |- (if unit_remainder (remainder_of ?x) then _ else _) <> _ =>
          destruct (unit_remainder (remainder_of x)) eqn:E2;
          [apply orbit_down_from_start; exact E2 | discriminate]
      end.
  - cbn [bind].
    match goal with
    | |- (if unit_remainder (remainder_of ?x) then _ else _) <> _ =>
        destruct (unit_remainder (remainder_of x)) eqn:E2;
        [apply orbit_down_from_start; exact E2 | discriminate]
    end.
Qed.

Lemma gen_curve_for_no_triple fuel N Ds t :
  gen_curve_for fuel N Ds <> Ret (Some t).
Proof.
  induction Ds as [|D rest IH]; [discriminate|].
  cbn [gen_curve_for].
  destruct (try_D fuel N D) as [[t'|]| |] eqn:E; try discriminate; cbn [bind].
  - exfalso. eapply try_D_no_triple; eassumption.
  - exact IH.
Qed.

(** C2 (failing input): [gen_curve(32, 500)] returns [None], and for no
    [N], [z] and no amount of fuel does [gen_curve] return a triple: the loop
    guard [abs(x) <= 2**ceil(N/2)] admits no [x] whose [l = (x -
    remainder)/6] lies in the window [(N-3)/2 <= log2(l) < (N-2)/2] with
    [4*l^2 + 1] prime. *)
Theorem gen_curve_returns_no_triple :
  gen_curve 100 32 500 = Ret None /\
  forall fuel N z t, gen_curve fuel N z <> Ret (Some t).
Proof.
  split; [vm_compute; reflexivity|].
  intros fuel N z t. apply gen_curve_for_no_triple.
Qed.

End MntFacts.

(** ** utils.py: the embedding-degree check *)

Module UtilsFacts.
Import Utils.

Lemma order_pos E : 0 < order E.
Proof. unfold order. lia. Qed.

Lemma pred_divides_pow_pred a j : 0 <= j -> (a - 1 | a ^ j - 1).
Proof.
  intros Hj. pattern j. apply natlike_ind; [| |exact Hj].
  - exists 0. reflexivity.
  - intros x Hx [c Hc]. exists (a * c + 1).
    rewrite Z.pow_succ_r by exact Hx.
    replace (a * a ^ x - 1) with (a * (a ^ x - 1) + (a - 1)) by ring.
    rewrite Hc. ring.
Qed.

(** C3 (counterexample): the check is not a check against the prime
    subgroup order [n].  On [y^2 = x^3 + 2] over [GF(7)], which has 9 points
    and hence a subgroup of prime order 3, [(7^1 - 1) mod 3 = 0] but
    [is_embedding_degree(E, 1)] is false. *)
Lemma is_embedding_degree_not_subgroup_order :
  ~ (forall E n k, prime n -> (n | order E) -> 0 <= k ->
       (is_embedding_degree E k = true
        <-> (base_field_order E ^ k - 1) mod n = 0)).
Proof.
  intros H. specialize (H E7 3 1).
  assert (Hp : prime 3) by (apply is_prime_spec; reflexivity).
  assert (Hd : (3 | order E7)) by (exists 3; reflexivity).
  destruct (H Hp Hd ltac:(lia)) as [_ Hback].
  specialize (Hback eq_refl). vm_compute in Hback. discriminate.
Qed.

(** C3 (amended): [is_embedding_degree(E, k)] is true exactly when the full
    group order [#E(F_p)] (what [E.order()] returns) divides [p^k - 1]; it
    looks at the given [k] only, and therefore also accepts every multiple
    of an accepted [k], minimal or not. *)
Theorem is_embedding_degree_full_order E k :
  0 <= k ->
  (is_embedding_degree E k = true <-> (order E | base_field_order E ^ k - 1))
  /\ (forall j, 0 <= j -> is_embedding_degree E k = true ->
                is_embedding_degree E (k * j) = true).
Proof.
  intros Hk. pose proof (order_pos E) as Ho.
  assert (Hiff : forall e, is_embedding_degree E e = true
                           <-> (order E | base_field_order E ^ e - 1)).
  { intros e. unfold is_embedding_degree. rewrite Z.eqb_eq.
    apply Z.mod_divide. lia. }
  split; [apply Hiff|].
  intros j Hj H. apply Hiff. apply Hiff in H.
  rewrite Z.pow_mul_r by assumption.
  eapply Z.divide_trans; [exact H|]. apply pred_divides_pow_pred. exact Hj.
Qed.

Lemma is_embedding_degree_full_order_witness :
  0 <= 3 /\
  ((is_embedding_degree E7 3 = true <-> (order E7 | base_field_order E7 ^ 3 - 1))
   /\ (forall j, 0 <= j -> is_embedding_degree E7 3 = true ->
                 is_embedding_degree E7 (3 * j) = true)).
Proof.
  split; [lia | apply (is_embedding_degree_full_order E7 3); lia].
Defined.

End UtilsFacts.

(** ** Curve construction from a j-invariant *)

Module CurveFacts.

Lemma egcd_inv_spec p b fuel : forall r0 s0 r1 s1,
  0 <= r0 -> 0 <= r1 -> (Z.to_nat r1 < fuel)%nat ->
  (p | r0 - s0 * b) -> (p | r1 - s1 * b) -> Z.gcd r0 r1 = 1 ->
  (p | 1 - egcd_inv fuel r0 s0 r1 s1 * b).
Proof.
  induction fuel as [|f IH]; intros r0 s0 r1 s1 H0 H1 Hf Hd0 Hd1 Hg; [lia|].
  cbn [egcd_inv]. destruct (Z.eqb_spec r1 0) as [->|Hne].
  - rewrite Z.gcd_0_r in Hg. replace r0 with 1 in Hd0 by lia. exact Hd0.
  - assert (Hr1 : 0 < r1) by lia.
    pose proof (Z.mod_pos_bound r0 r1 Hr1) as Hb.
    apply IH; try lia.
    + exact Hd1.
    + replace (r0 mod r1 - (s0 - r0 / r1 * s1) * b)
        with ((r0 - s0 * b) - (r0 / r1) * (r1 - s1 * b)
              - (r0 - r1 * (r0 / r1) - r0 mod r1)) by ring.
      apply Z.divide_sub_r; [apply Z.divide_sub_r|].
      * exact Hd0.
      * apply Z.divide_mul_r. exact Hd1.
      * pose proof (Z.div_mod r0 r1 Hne) as E.
        replace (r0 - r1 * (r0 / r1) - r0 mod r1) with 0 by lia.
        apply Z.divide_0_r.
    + rewrite Z.gcd_comm, Z.gcd_mod by exact Hne. rewrite Z.gcd_comm.
      rewrite Z.gcd_comm in Hg. rewrite Z.gcd_comm. exact Hg.
Qed.

(** [gf_inv] is the inverse in [GF(p)] *)
Lemma gf_inv_spec p b :
  prime p -> b mod p <> 0 -> (b * gf_inv p b) mod p = 1.
Proof.
  intros Hp Hb. pose proof (prime_ge_2 _ Hp) as H2.
  pose proof (Z.mod_pos_bound b p ltac:(lia)) as Hbb.
  unfold gf_inv. set (s := egcd_inv _ _ _ _ _).
  assert (Hs : (p | 1 - s * b)).
  { apply egcd_inv_spec; try lia.
    - exists (- (b / p)). pose proof (Z.div_mod b p ltac:(lia)). lia.
    - exists 1. ring.
    - apply Zgcd_1_rel_prime. apply rel_prime_sym.
      apply prime_rel_prime; [exact Hp|].
      intros Hdiv. apply Z.mod_divide in Hdiv; [|lia].
      rewrite Z.mod_mod in Hdiv by lia. contradiction. }
  rewrite Z.mul_mod_idemp_r by lia.
  destruct Hs as [c Hc].
  replace (b * s) with (1 + (- c) * p) by lia.
  rewrite Z.mod_add by lia. apply Z.mod_small. lia.
Qed.

(** [gf_div p a b] is the field quotient: it lies in [[0, p)] and gives [a]
    back when multiplied by [b] *)
Lemma gf_div_spec p a b :
  prime p -> b mod p <> 0 ->
  exists q, gf_div p a b = Ret q /\ 0 <= q < p /\ (q * b) mod p = a mod p.
Proof.
  intros Hp Hb. pose proof (prime_ge_2 _ Hp) as H2.
  unfold gf_div. destruct (Z.eqb_spec (b mod p) 0) as [E|_]; [contradiction|].
  eexists. split; [reflexivity|]. split; [apply Z.mod_pos_bound; lia|].
  rewrite Z.mul_mod_idemp_l by lia.
  replace (a * gf_inv p b * b) with (a * (b * gf_inv p b)) by ring.
  rewrite <- Z.mul_mod_idemp_r by lia.
  rewrite gf_inv_spec by assumption. rewrite Z.mul_1_r. reflexivity.
Qed.

(** C9: the coefficients are a function of [(p, j0, c)] alone, by the case
    split [j0 = 0], [j0 = 1728], otherwise [a4 = 3c^2 j0/(1728 - j0)] and
    [a6 = 2c^3 j0/(1728 - j0)] with the division of [GF(p)]; building the
    curve twice from the same data gives the same result. *)
Theorem curve_coefficients_cases p j0 c :
  prime p ->
  (j0 mod p = 0 -> curve_coefficients p j0 c = Ret (0, c))
  /\ (j0 mod p <> 0 -> j0 mod p = 1728 mod p ->
      curve_coefficients p j0 c = Ret (c, 0))
  /\ (j0 mod p <> 0 -> j0 mod p <> 1728 mod p ->
      exists c4 c6,
        curve_coefficients p j0 c = Ret (c4, c6)
        /\ 0 <= c4 < p /\ 0 <= c6 < p
        /\ (c4 * (1728 - j0)) mod p = (3 * c ^ 2 * j0) mod p
        /\ (c6 * (1728 - j0)) mod p = (2 * c ^ 3 * j0) mod p)
  /\ (forall r1 r2,
        curve_from_j p j0 c = r1 -> curve_from_j p j0 c = r2 -> r1 = r2).
Proof.
  intros Hp. pose proof (prime_ge_2 _ Hp) as H2. unfold curve_coefficients.
  split; [|split; [|split]].
  - intros H0. apply Z.eqb_eq in H0. rewrite H0. reflexivity.
  - intros H0 H1. apply Z.eqb_neq in H0. apply Z.eqb_eq in H1.
    rewrite H0, H1. reflexivity.
  - intros H0 H1.
    assert (Hden : (1728 - j0) mod p <> 0).
    { intros E. apply H1. apply Z.mod_divide in E; [|lia]. destruct E as [k Hk].
      replace j0 with (1728 + (- k) * p) by lia. apply Z.mod_add. lia. }
    apply Z.eqb_neq in H0. apply Z.eqb_neq in H1. rewrite H0, H1.
    destruct (gf_div_spec p (3 * c ^ 2 * j0) (1728 - j0) Hp Hden)
      as (c4 & E4 & B4 & M4).
    destruct (gf_div_spec p (2 * c ^ 3 * j0) (1728 - j0) Hp Hden)
      as (c6 & E6 & B6 & M6).
    exists c4, c6. rewrite E4, E6. cbn [bind]. auto.
  - intros r1 r2 <- <-. reflexivity.
Qed.

Lemma curve_coefficients_cases_witness :
  prime 7 /\
  ((3 mod 7 = 0 -> curve_coefficients 7 3 2 = Ret (0, 2))
   /\ (3 mod 7 <> 0 -> 3 mod 7 = 1728 mod 7 ->
       curve_coefficients 7 3 2 = Ret (2, 0))
   /\ (3 mod 7 <> 0 -> 3 mod 7 <> 1728 mod 7 ->
       exists c4 c6,
         curve_coefficients 7 3 2 = Ret (c4, c6)
         /\ 0 <= c4 < 7 /\ 0 <= c6 < 7
         /\ (c4 * (1728 - 3)) mod 7 = (3 * 2 ^ 2 * 3) mod 7
         /\ (c6 * (1728 - 3)) mod 7 = (2 * 2 ^ 3 * 3) mod 7)
   /\ (forall r1 r2,
         curve_from_j 7 3 2 = r1 -> curve_from_j 7 3 2 = r2 -> r1 = r2)).
Proof.
  assert (H7 : prime 7) by (apply is_prime_spec; reflexivity).
  split; [exact H7 | apply (curve_coefficients_cases 7 3 2 H7)].
Defined.

(** In characteristic 3 the pair [(0, c)] is singular: the coefficients are
    as above, but the curve constructor raises. *)
Lemma curve_from_j_char3_raises :
  curve_from_j 3 0 1 = Raise ArithmeticError.
Proof. reflexivity. Qed.

End CurveFacts.

(** ** WIP/complex_multiplication.py: the input checks of [gen_curve] *)

Module ComplexMultiplicationFacts.
Import ComplexMultiplication.




(** The three failures, in the order of the assertions. *)
Lemma gen_curve_rejects root cof D cs :
  gen_curve root cof 4 5 1 D cs = Raise (AssertionError "p has to be prime!")
  /\ gen_curve root cof 5 4 1 D cs = Raise (AssertionError "n has to be prime!")
  /\ gen_curve root cof 5 11 1 D cs
     = Raise (AssertionError "Hasse bound is not satisfied!").
Proof. repeat split. Qed.

End ComplexMultiplicationFacts.

(** ** The discriminant searches *)

Module DiscriminantFacts.

(** the two implementations of the Kronecker symbol agree on a box *)
Lemma kronecker_binary_agrees :
  forallb (fun b => forallb (fun a => kronecker a b =? kronecker_binary a b)
                            (range (-40) 41))
          (range (-40) 41) = true.
Proof. vm_compute. reflexivity. Qed.

Lemma cm_resample_first_accepted r rnd : forall D,
  ComplexMultiplication.resample r D rnd =
  match first_accepted r (D :: map (fun k => candidate k r) rnd) with
  | Some D' => Ret D'
  | None => Timeout
  end.
Proof.
  induction rnd as [|k rnd IH]; intros D; cbn [ComplexMultiplication.resample];
    unfold first_accepted; cbn [map find];
    destruct (kronecker D r =? 1); try reflexivity.
  rewrite IH. reflexivity.
Qed.

Lemma cp_resample_first_accepted n rnd : forall D,
  CocksPinch.resample n D rnd =
  match first_accepted n (D :: map (fun k => candidate k n) rnd) with
  | Some D' => Ret D'
  | None => Timeout
  end.
Proof.
  induction rnd as [|k rnd IH]; intros D; cbn [CocksPinch.resample];
    unfold first_accepted; cbn [map find];
    destruct (kronecker D n =? 1); try reflexivity.
  rewrite IH. reflexivity.
Qed.

(** C7 (counterexample): for the modulus 2 and the sample 1 the candidate is
    [-1] with [(-1/2) = 1]; its fundamental discriminant is [-4] with
    [(-4/2) = 0].  The CM search returns the sentinel 0, the Cocks-Pinch
    search raises an assertion error and does not return 0. *)
Lemma find_fundamental_discriminant_raises :
  kronecker (candidate 1 2) 2 = 1
  /\ kronecker (fundamental_discriminant (candidate 1 2)) 2 <> 1
  /\ ComplexMultiplication.choose_random_fundamental_discriminant 2 [1] = Ret 0
  /\ CocksPinch.find_fundamental_discriminant 2 [1] = Raise (AssertionError "")
  /\ CocksPinch.find_fundamental_discriminant 2 [1] <> Ret 0.
Proof.
  repeat split; try reflexivity; vm_compute; discriminate.
Qed.

(** C7 (amended): both searches take the first candidate [D] of their
    sequence with [(D/r) = 1] (the CM search samples first, the Cocks-Pinch
    search starts from [D = 0]), replace it by its fundamental discriminant
    and test the symbol again.  When the second test fails the CM search
    returns 0, and the Cocks-Pinch search raises an assertion error. *)
Theorem discriminant_search_outcomes r rnd :
  ComplexMultiplication.choose_random_fundamental_discriminant r rnd =
    match first_accepted r (map (fun k => candidate k r) rnd) with
    | None => Timeout
    | Some D =>
        if kronecker (fundamental_discriminant D) r =? 1
        then Ret (fundamental_discriminant D)
        else Ret 0
    end
  /\
  CocksPinch.find_fundamental_discriminant r rnd =
    match first_accepted r (0 :: map (fun k => candidate k r) rnd) with
    | None => Timeout
    | Some D =>
        if kronecker (fundamental_discriminant D) r =? 1
        then Ret (fundamental_discriminant D)
        else Raise (AssertionError "")
    end.
Proof.
  split.
  - unfold ComplexMultiplication.choose_random_fundamental_discriminant.
    destruct rnd as [|k rnd]; [reflexivity|].
    rewrite cm_resample_first_accepted. cbn [map].
    destruct (first_accepted r _) as [D|]; [|reflexivity].
    cbn [bind]. destruct (kronecker (fundamental_discriminant D) r =? 1);
      reflexivity.
  - unfold CocksPinch.find_fundamental_discriminant.
    rewrite cp_resample_first_accepted.
    destruct (first_accepted r _) as [D|]; [|reflexivity].
    cbn [bind]. unfold assert.
    destruct (kronecker (fundamental_discriminant D) r =? 1); reflexivity.
Qed.

End DiscriminantFacts.

(** ** cocks_pinch.py: elements of a given order *)

Module CocksPinchFacts.
Import CocksPinch.







(** the run of the witness: the sample 6 gives [6^2 mod 7 = 1], of order 1,
    and is rejected; the sample 3 gives [3^2 mod 7 = 2], of order 3 *)
Lemma find_element_of_order_3_7 : find_element_of_order 3 7 [6; 3] = Ret 2.
Proof. reflexivity. Qed.

End CocksPinchFacts.

(** ** WIP/complex_multiplication.py: Cornacchia's algorithm *)

Module CornacchiaFacts.
Import ComplexMultiplication.

Lemma kronecker_loop_prime a p : prime p -> forall fuel d,
  2 <= d <= p -> p < d + Z.of_nat fuel ->
  kronecker_loop fuel a d p = prime_symbol a p.
Proof.
  intros Hp. pose proof (prime_ge_2 _ Hp) as H2.
  induction fuel as [|f IH]; intros d Hd Hf; [lia|].
  cbn [kronecker_loop].
  destruct (Z.eqb_spec p 1) as [E|_]; [lia|].
  destruct (Z.ltb_spec p (d * d)) as [_|Hge]; [reflexivity|].
  destruct (Z.eqb_spec (p mod d) 0) as [E|_].
  - exfalso. apply Z.mod_divide in E; [|lia].
    destruct (prime_divisors _ Hp _ E) as [C|[C|[C|C]]]; nia.
  - apply IH; nia.
Qed.

Lemma kronecker_prime a p : prime p -> kronecker a p = prime_symbol a p.
Proof.
  intros Hp. pose proof (prime_ge_2 _ Hp) as H2. unfold kronecker.
  destruct (Z.eqb_spec p 0) as [E|_]; [lia|].
  destruct (Z.ltb_spec p 0) as [C|_]; [lia|]. cbn [andb].
  rewrite Z.abs_eq by lia. rewrite Z.mul_1_l.
  apply kronecker_loop_prime; [exact Hp | lia |].
  pose proof (Z.log2_nonneg p). lia.
Qed.




Lemma Qred_of_integer x z :
  (x == inject_Z z)%Q -> Qnum (Qred x) = z /\ Qden (Qred x) = 1%positive.
Proof.
  intros Hx. pose proof (gcd_Qred x) as Hg.
  assert (Hv : (Qred x == inject_Z z)%Q) by (rewrite Qred_correct; exact Hx).
  destruct (Qred x) as [vn vd]. unfold Qeq in Hv. cbn in Hv, Hg |- *.
  rewrite Z.mul_1_r in Hv. subst vn.
  rewrite Z.gcd_comm, (Z.mul_comm z), Z.gcd_mul_diag_l in Hg by lia.
  injection Hg as ->. split; [ring | reflexivity].
Qed.




(** the run of the witness, and a run that ends in [None] although
    [2 = 1^2 + 1*1^2]: the only remainder below [sqrt(2)] is 0 *)
Lemma cornacchia_runs :
  cornacchia 13 13 1 = Ret (Some (3, 2)) /\ cornacchia 10 2 1 = Ret None.
Proof. split; reflexivity. Qed.

End CornacchiaFacts.

(** ** barreto_naehrig.py: the end of the scan *)

Module BarretoNaehrigFacts.
Import BarretoNaehrig.

Section Runs.

Variable find_curve : Z -> Z -> outcome (EllipticCurve * point).
Variable show : EllipticCurve -> string.

(** When the first [p = P(-u)] is already longer than [p_max] bits, the
    generator ends without a [yield] and the script prints nothing and ends
    with status 0. *)
Lemma exhausted_at_once rounds fuel num_curves m p_max :
  p_max < bit_length (P (- initial_u m)) ->
  next find_curve (S fuel) p_max (gen_curve m) = Ret StopIteration
  /\ main find_curve show (S rounds) (S fuel) num_curves m p_max
     = Ret (mk_finished [] 0 None).
Proof.
  intros H.
  assert (E : next find_curve (S fuel) p_max (gen_curve m) = Ret StopIteration).
  { unfold next, gen_curve. cbn [scan p]. cbv zeta.
    destruct (Z.leb_spec (bit_length (P (- initial_u m))) p_max) as [C|_];
      [lia|]. reflexivity. }
  split; [exact E|]. unfold main. cbn [main_loop]. rewrite E. reflexivity.
Qed.

(** The flag [found_curve] is never cleared.  With [--m 5 --p-max 4] the
    scan finds [p = P(-1) = 19], [n = 13] (5 bits, found inside the loop
    body); after that [yield] the scan cannot run any more, and every later
    [next()] yields the curve of [(19, 13)] again instead of ending. *)
Lemma found_curve_flag_is_stale fuel E G k :
  find_curve 19 13 = Ret (E, G) ->
  next find_curve (S (S fuel)) 4 (gen_curve 5)
    = Ret (Yield (Some (19, E, 13, G)) (mk_locals 2 19 (Some 13) true))
  /\ 4 < bit_length 19
  /\ next find_curve (S fuel) 4 (mk_locals k 19 (Some 13) true)
     = Ret (Yield (Some (19, E, 13, G)) (mk_locals (k + 1) 19 (Some 13) true)).
Proof.
  intros Hf. split; [|split].
  - vm_compute. rewrite Hf. reflexivity.
  - reflexivity.
  - unfold next. cbn [scan p]. cbv zeta.
    change (bit_length 19 <=? 4) with false. cbv iota.
    cbn [bind found_curve negb n p u]. rewrite Hf. reflexivity.
Qed.

(** The generator never yields [None]. *)
Lemma next_never_yields_None fuel p_max st st' :
  next find_curve fuel p_max st <> Ret (Yield None st').
Proof.
  unfold next. destruct (scan fuel p_max st) as [s| |]; try discriminate.
  cbn [bind]. destruct (negb (found_curve s)); [discriminate|].
  destruct (n s) as [nv|]; [|discriminate].
  destruct (find_curve (p s) nv) as [[E G]| |]; discriminate.
Qed.

(** Hence the branch [if curve is None: print(...); exit(1)] is dead: the
    script ends with status 1 only through an uncaught exception. *)
Lemma exit_1_only_by_exception rounds : forall fuel p_max remaining st out f,
  main_loop find_curve show rounds fuel p_max remaining st out = Ret f ->
  exit_status f = 1 -> uncaught f <> None.
Proof.
  induction rounds as [|k IH]; intros fuel p_max remaining st out f H H1;
    [discriminate|].
  cbn [main_loop] in H.
  destruct (next find_curve fuel p_max st) as [[[[[[pv E] nv] G]|] st'|]| |] eqn:En.
  - cbv zeta in H. destruct (remaining - 1 =? 0).
    + injection H as <-. cbn in H1. discriminate.
    + eapply IH; eassumption.
  - exfalso. eapply next_never_yields_None. exact En.
  - injection H as <-. cbn in H1. discriminate.
  - injection H as <-. cbn. discriminate.
  - discriminate.
Qed.

End Runs.

(** C6 (failing input): [--m 100 --p-max 64].  The first candidate
    [P(13698539)] has 100 bits, so the scan is exhausted at once; the
    generator yields nothing, and the script prints no diagnostic and ends
    with exit status 0, for every curve-construction capability. *)
Theorem exhausted_scan_exits_silently :
  forall find_curve show rounds fuel,
    BarretoNaehrig.next find_curve (S fuel) 64 (gen_curve 100)
      = Ret StopIteration
    /\ main find_curve show (S rounds) (S fuel) 10000 100 64
       = Ret (mk_finished [] 0 None).
Proof.
  intros. apply exhausted_at_once. vm_compute. reflexivity.
Qed.

End BarretoNaehrigFacts.

(** * Further properties of the code *)

(** ** WIP/mnt.py *)

Module MntExtras.
Import Mnt MntFacts.

Lemma scan_integer_solutions D m ys : forall sols,
  (forall y, In y ys -> 0 <= y) ->
  Forall (fun s => pell_eq D m s /\ integer_pair s) sols ->
  Forall (fun s => pell_eq D m s /\ integer_pair s) (scan D m ys sols).
Proof.
  induction ys as [|y ys IH]; intros sols Hys Hs; [exact Hs|].
  assert (Hy : 0 <= y) by (apply Hys; left; reflexivity).
  assert (Hrest : forall y', In y' ys -> 0 <= y')
    by (intros y' Hin; apply Hys; right; exact Hin).
  cbn [scan]. cbv zeta.
  destruct (is_square (m + D * y ^ 2)) eqn:Esq; [|apply IH; assumption].
  apply is_square_spec in Esq. destruct Esq as (s & Hs0 & Hss).
  assert (Hroot : Z.sqrt (m + D * y ^ 2) = s).
  { rewrite <- Hss. apply Z.sqrt_square. exact Hs0. }
  rewrite Hroot.
  assert (Hpos : pell_eq D m (qz s, qz y) /\ integer_pair (qz s, qz y)).
  { split; [unfold pell_eq, qz, Qeq; simpl; nia|].
    exists s, y. split; [reflexivity | exact Hy]. }
  assert (Hneg : pell_eq D m (qz (- s), qz y) /\ integer_pair (qz (- s), qz y)).
  { split; [unfold pell_eq, qz, Qeq; simpl; nia|].
    exists (- s), y. split; [reflexivity | exact Hy]. }
  destruct (negb _); apply IH; try exact Hrest;
    rewrite ?Forall_app; repeat split; auto using Forall_nil, Forall_cons.
Qed.

Lemma ceil_sqrt_q_nonneg r c : ceil_sqrt_q r = Ret c -> 0 <= c.
Proof.
  unfold ceil_sqrt_q. destruct (Qle_bool 0 r); [|discriminate].
  intros H. injection H as <-.
  pose proof (Z.sqrt_nonneg (Qceiling r)).
  destruct (is_square (Qceiling r)); lia.
Qed.

(** X1: every pair in the list returned by [pell_solve_2(D, m)] is a pair of
    integers [(x, y)] with [y >= 0] and [x^2 - D*y^2 = m] exactly. *)
Theorem pell_solve_2_pairs_solve fuel D m sols :
  pell_solve_2 fuel D m = Ret sols ->
  forall s, In s sols ->
    (fst s * fst s - qz D * (snd s * snd s) == qz m)%Q
    /\ exists xz yz, s = (qz xz, qz yz) /\ 0 <= yz.
Proof.
  unfold pell_solve_2. intros H.
  apply bind_Ret_inv in H. destruct H as (? & _ & H).
  apply bind_Ret_inv in H. destruct H as (? & _ & H).
  apply bind_Ret_inv in H. destruct H as (? & _ & H).
  apply bind_Ret_inv in H. destruct H as (s1 & _ & H).
  apply bind_Ret_inv in H. destruct H as ([u v] & _ & H).
  apply bind_Ret_inv in H. destruct H as ([lo hi] & Hb & H).
  injection H as <-.
  assert (Hlo : 0 <= lo).
  { destruct (0 <? m).
    - apply bind_Ret_inv in Hb. destruct Hb as (? & _ & Hb).
      apply bind_Ret_inv in Hb. destruct Hb as (? & _ & Hb).
      injection Hb as <- _. lia.
    - apply bind_Ret_inv in Hb. destruct Hb as (? & _ & Hb).
      apply bind_Ret_inv in Hb. destruct Hb as (L1 & HL1 & Hb).
      apply bind_Ret_inv in Hb. destruct Hb as (? & _ & Hb).
      apply bind_Ret_inv in Hb. destruct Hb as (? & _ & Hb).
      injection Hb as <- _. eapply ceil_sqrt_q_nonneg. exact HL1. }
  assert (HF : Forall (fun s => pell_eq D m s /\ integer_pair s)
                      (scan D m (range lo (hi + 1)) [])).
  { apply scan_integer_solutions; [|constructor].
    intros y Hin. apply in_range in Hin. lia. }
  rewrite Forall_forall in HF. intros s Hin. exact (HF s Hin).
Qed.

Lemma pell_solve_2_pairs_solve_witness :
  pell_solve_2 10 57 (-8) = Ret [(qz 7, qz 1); (qz (-7), qz 1)] /\
  forall s, In s [(qz 7, qz 1); (qz (-7), qz 1)] ->
    (fst s * fst s - qz 57 * (snd s * snd s) == qz (-8))%Q
    /\ exists xz yz, s = (qz xz, qz yz) /\ 0 <= yz.
Proof.
  split; [reflexivity|].
  apply (pell_solve_2_pairs_solve 10 57 (-8)). reflexivity.
Defined.

Lemma q_is_square_nonneg f2 : q_is_square f2 = true -> (0 <= f2)%Q.
Proof.
  unfold q_is_square. intros H. apply andb_true_iff in H. destruct H as [Hn _].
  rewrite <- (Qred_correct f2). unfold is_square in Hn.
  apply andb_true_iff in Hn. destruct Hn as [Hn _]. apply Z.leb_le in Hn.
  destruct (Qred f2) as [n d]. unfold Qle. simpl in *. lia.
Qed.

(** X2: every pair [(x, y)] in the list returned by [pell_solve_1(D, m)] has
    [x^2 - D*y^2 = f2^2 * m] for a perfect-square rational [f2], the quotient
    the loop tested; it solves [x^2 - D*y^2 = m] exactly when [f2 = 1]. *)
Theorem pell_solve_1_pairs_scaled fuel D m sols :
  pell_solve_1 fuel D m = Ret sols ->
  forall s, In s sols ->
    exists f2 : Q,
      q_is_square f2 = true
      /\ (fst s * fst s - qz D * (snd s * snd s) == f2 * f2 * qz m)%Q
      /\ (pell_eq D m s <-> (f2 == 1)%Q).
Proof.
  intros H s Hin.
  assert (Hm : m <> 0).
  { unfold pell_solve_1 in H. destruct (Z.eqb_spec m 0) as [E|E]; [|exact E].
    discriminate H. }
  pose proof (pell_solve_1_scaled _ _ _ _ H) as HF.
  rewrite Forall_forall in HF. destruct (HF s Hin) as (f2 & Hsq & Hn).
  exists f2. split; [exact Hsq|]. split; [exact Hn|].
  pose proof (q_is_square_nonneg f2 Hsq) as H0.
  assert (Hmq : ~ (qz m == 0)%Q).
  { unfold qz, Qeq. simpl. lia. }
  unfold pell_eq. rewrite Hn. split.
  - intros E.
    assert (E1 : ((f2 * f2 - 1) * qz m == 0)%Q).
    { apply Qeq_trans with (f2 * f2 * qz m - qz m)%Q; [ring|]. rewrite E. ring. }
    apply Qmult_integral in E1. destruct E1 as [E1|E1]; [|contradiction].
    assert (E2 : ((f2 - 1) * (f2 + 1) == 0)%Q).
    { apply Qeq_trans with (f2 * f2 - 1)%Q; [ring | exact E1]. }
    apply Qmult_integral in E2. destruct E2 as [E2|E2]; lra.
  - intros ->. ring.
Qed.

Lemma pell_solve_1_pairs_scaled_witness :
  pell_solve_1 10 21 1 = Ret [(qz 10, qz 2); (qz 46, qz 10); (qz 55, qz 12)] /\
  forall s, In s [(qz 10, qz 2); (qz 46, qz 10); (qz 55, qz 12)] ->
    exists f2 : Q,
      q_is_square f2 = true
      /\ (fst s * fst s - qz 21 * (snd s * snd s) == f2 * f2 * qz 1)%Q
      /\ (pell_eq 21 1 s <-> (f2 == 1)%Q).
Proof.
  split; [reflexivity|].
  apply (pell_solve_1_pairs_scaled 10 21 1). reflexivity.
Defined.

(** X3: the script never prints a triple: whatever [N] and [z] are, [main]
    does not return (it raises, at the latest the [TypeError] of unpacking
    [None], or runs out of fuel). *)
Theorem main_never_prints fuel N z : forall t, main fuel N z <> Ret t.
Proof.
  intros t. unfold main, gen_curve.
  destruct (gen_curve_for fuel N (range_step 9 (3 * z + 1) 24))
    as [[t'|]| |] eqn:E; cbn [bind]; try discriminate.
  exfalso. eapply gen_curve_for_no_triple. exact E.
Qed.

Lemma idx_at {A : Type} (l : list A) x r z :
  z = Z.of_nat (List.length l) -> idx (l ++ x :: r) z = Ret x.
Proof.
  intros ->. unfold idx.
  destruct (Z.ltb_spec (Z.of_nat (List.length l)) 0) as [C|_]; [lia|].
  cbv zeta. destruct (Z.ltb_spec (Z.of_nat (List.length l)) 0) as [C|_]; [lia|].
  rewrite Nat2Z.id, nth_error_app2, Nat.sub_diag by lia. reflexivity.
Qed.

Lemma idx_in_range {A : Type} (l : list A) z :
  0 <= z < Z.of_nat (List.length l) -> exists x, idx l z = Ret x.
Proof.
  intros H. unfold idx. destruct (Z.ltb_spec z 0) as [C|_]; [lia|].
  cbv zeta. destruct (Z.ltb_spec z 0) as [C|_]; [lia|].
  destruct (nth_error l (Z.to_nat z)) as [x|] eqn:E; [exists x; reflexivity|].
  apply nth_error_None in E. lia.
Qed.

Lemma rational_square_integer (x : Q) (D : Z) :
  (x * x == qz D)%Q -> is_square D = true.
Proof.
  destruct x as [n d]. unfold Qeq, qz. cbn [Qnum Qden Qmult inject_Z].
  intros H. rewrite Z.mul_1_r, Pos2Z.inj_mul in H.
  set (dz := Z.pos d) in *. assert (Hd : 0 < dz) by (unfold dz; lia).
  set (g := Z.gcd n dz).
  assert (Hg : 0 < g).
  { pose proof (Z.gcd_nonneg n dz). destruct (Z.eq_dec g 0) as [E|]; [|lia].
    apply Z.gcd_eq_0_r in E. lia. }
  destruct (Z.gcd_divide_l n dz) as [n' Hn]. destruct (Z.gcd_divide_r n dz) as [d' Hd'].
  fold g in Hn, Hd'.
  assert (Hrel : Z.gcd n' d' = 1).
  { assert (E : Z.gcd (n' * g) (d' * g) = g) by (rewrite <- Hn, <- Hd'; reflexivity).
    rewrite Z.gcd_mul_mono_r_nonneg in E by lia. nia. }
  assert (Heq : n' * n' = D * (d' * d')) by nia.
  assert (Hd1 : (d' | n')).
  { apply Z.gauss with n'; [exists (D * d'); rewrite Heq; ring|].
    rewrite Z.gcd_comm. exact Hrel. }
  assert (Hd'1 : d' = 1).
  { assert (Hdd : (d' | 1)).
    { rewrite <- Hrel. apply Z.gcd_greatest; [exact Hd1 | apply Z.divide_refl]. }
    apply Z.divide_1_r_nonneg in Hdd; nia. }
  subst d'. apply is_square_spec. exists (Z.abs n'). split; [lia|]. nia.
Qed.

Lemma qdiv_nonzero x y : ~ (y == 0)%Q -> qdiv x y = Ret (Qred (x / y)).
Proof.
  intros H. unfold qdiv. destruct (Qeq_bool y 0) eqn:E; [|reflexivity].
  apply Qeq_bool_iff in E. contradiction.
Qed.

Lemma floor_quad_returns p D q :
  0 <= D -> ~ (q == 0)%Q -> exists z, floor_quad p D q = Ret z.
Proof.
  intros HD Hq. unfold floor_quad.
  destruct (Z.ltb_spec D 0) as [C|_]; [lia|]. cbv zeta.
  destruct (Z.eqb_spec (Z.pos (Qden p) * Qnum q) 0) as [E|_].
  - exfalso. apply Hq. unfold Qeq. cbn. nia.
  - destruct (0 <? _); eexists; reflexivity.
Qed.

Lemma next_Q_nonzero D pv qv :
  is_square D = false -> ~ (qv == 0)%Q ->
  ~ (Qred (qsub (qz D) (qsquare pv) / qv) == 0)%Q.
Proof.
  intros HD Hq H. rewrite Qred_correct in H.
  assert (E : (qsub (qz D) (qsquare pv) == 0)%Q).
  { rewrite <- (Qmult_div_r (qsub (qz D) (qsquare pv)) qv Hq), H. ring. }
  unfold qsub, qsquare, qmul in E. rewrite !Qred_correct in E.
  assert (E' : (pv * pv == qz D)%Q) by lra.
  apply rational_square_integer in E'. congruence.
Qed.

Lemma cf_step_explicit D st i lb b2 b1 lp pv lq qv la av lg g2 g1 :
  0 <= D -> is_square D = false ->
  cf_shape st i lb b2 b1 lp pv lq qv la av lg g2 g1 -> ~ (qv == 0)%Q ->
  let pnew := qsub (qmul (qz av) qv) pv in
  let qnew := Qred (qsub (qz D) (qsquare pnew) / qv) in
  exists anew,
    let st' := mk_cf (B st ++ [anew * b1 + b2]) (P st ++ [Some pnew])
                     (Qs st ++ [Some qnew]) (a st ++ [Some anew])
                     (G st ++ [anew * g1 + g2]) in
    cf_step D st (Z.of_nat i + 2) = Ret st'
    /\ cf_shape st' (S i) (lb ++ [b2]) b1 (anew * b1 + b2)
                 (lp ++ [Some pv]) pnew (lq ++ [Some qv]) qnew
                 (la ++ [Some av]) anew (lg ++ [g2]) g1 (anew * g1 + g2)
    /\ ~ (qnew == 0)%Q.
Proof.
  intros HD Hsq (EB & EP & EQ & Ea & EG & Lb & Lg & Lp & Lq & La) Hq pnew qnew.
  assert (Hqn : ~ (qnew == 0)%Q) by (apply next_Q_nonzero; assumption).
  destruct (floor_quad_returns pnew D qnew HD Hqn) as (anew & Hfl).
  exists anew. cbv zeta. split; [|split; [|exact Hqn]].
  - unfold cf_step, idx_some.
    rewrite Ea, EQ, EP, EB, EG.
    rewrite (idx_at la) by lia. cbn [bind].
    rewrite (idx_at lq) by lia. cbn [bind].
    rewrite (idx_at lp) by lia. cbn [bind]. fold pnew.
    rewrite (idx_at (lp ++ [Some pv]))
      by (rewrite length_app; cbn [List.length]; lia).
    cbn [bind]. rewrite qdiv_nonzero by exact Hq. cbn [bind]. fold qnew.
    rewrite (idx_at (lq ++ [Some qv]))
      by (rewrite length_app; cbn [List.length]; lia).
    cbn [bind]. rewrite Hfl. cbn [bind].
    rewrite (idx_at (la ++ [Some av]))
      by (rewrite length_app; cbn [List.length]; lia).
    cbn [bind].
    replace (lb ++ [b2; b1]) with ((lb ++ [b2]) ++ [b1])
      by (rewrite <- app_assoc; reflexivity).
    rewrite (idx_at (lb ++ [b2]))
      by (rewrite length_app; cbn [List.length]; lia).
    cbn [bind]. rewrite <- (app_assoc lb [b2] [b1]). cbn [app].
    rewrite (idx_at lb) by lia. cbn [bind].
    replace (lg ++ [g2; g1]) with ((lg ++ [g2]) ++ [g1])
      by (rewrite <- app_assoc; reflexivity).
    rewrite (idx_at (lg ++ [g2]))
      by (rewrite length_app; cbn [List.length]; lia).
    cbn [bind]. rewrite <- (app_assoc lg [g2] [g1]). cbn [app].
    rewrite (idx_at lg) by lia. cbn [bind]. reflexivity.
  - unfold cf_shape. cbn [B P Qs a G]. rewrite EB, EP, EQ, Ea, EG.
    rewrite !length_app. cbn [List.length].
    repeat split; try lia; rewrite <- !app_assoc; reflexivity.
Qed.

Lemma cf_step_ready D st i :
  0 <= D -> is_square D = false -> cf_ready st i ->
  exists st', cf_step D st (Z.of_nat i + 2) = Ret st' /\ cf_ready st' (S i).
Proof.
  intros HD Hsq (lb & b2 & b1 & lp & pv & lq & qv & la & av & lg & g2 & g1
                 & Hs & Hq).
  destruct (cf_step_explicit D st i _ _ _ _ _ _ _ _ _ _ _ _ HD Hsq Hs Hq)
    as (anew & Hstep & Hs' & Hq').
  eexists. split; [exact Hstep|].
  do 12 eexists. split; [exact Hs' | exact Hq'].
Qed.

Lemma cf_loop_ready D : 0 <= D -> is_square D = false -> forall fuel st i,
  cf_ready st i ->
  match cf_loop fuel D st (Z.of_nat i + 1) with
  | Ret (st', i') => exists k, cf_ready st' k /\ i' = Z.of_nat k + 1
  | Raise _ => False
  | Timeout => True
  end.
Proof.
  intros HD Hsq. induction fuel as [|f IH]; intros st i Hr; [exact I|].
  cbn [cf_loop]. cbv zeta.
  replace (Z.of_nat i + 1 + 1) with (Z.of_nat i + 2) by ring.
  destruct (cf_step_ready D st i HD Hsq Hr) as (st' & -> & Hr').
  cbn [bind]. pose proof Hr' as Hshape.
  destruct Hshape as (lb & b2 & b1 & lp & pv & lq & qv & la & av & lg & g2 & g1
                 & (EB & EP & EQ & Ea & EG & Lb & Lg & Lp & Lq & La) & Hq).
  unfold idx_some. rewrite EQ. rewrite (idx_at lq) by lia. cbn [bind].
  destruct (_ && _).
  - exists (S i). split; [exact Hr' | lia].
  - replace (Z.of_nat i + 2) with (Z.of_nat (S i) + 1) by lia.
    apply IH. exact Hr'.
Qed.

Lemma collect_returns D m st : m <> 0 -> forall js sols,
  (forall j, In j js -> 0 <= j < Z.of_nat (List.length (G st))
                        /\ j < Z.of_nat (List.length (B st))) ->
  exists r, collect D m st js sols = Ret r.
Proof.
  intros Hm. induction js as [|j js IH]; intros sols Hjs;
    [eexists; reflexivity|].
  cbn [collect].
  destruct (Hjs j (or_introl eq_refl)) as (HG & HB).
  destruct (idx_in_range (G st) j HG) as (gj & ->).
  destruct (idx_in_range (B st) j ltac:(lia)) as (bj & ->). cbn [bind].
  rewrite qdiv_nonzero by (unfold qz, Qeq; cbn; lia). cbn [bind].
  destruct (q_is_square _); apply IH; intros j' Hin; apply Hjs; right; exact Hin.
Qed.

(** X18: [pell_solve_1] raises nothing but the [AssertionError] of its
    three input checks, and raises it exactly when one of them fails: for
    [m <> 0], [D > m^2] and [D] not a perfect square no division by zero, no
    index error and no type error can occur (no [Q_i] vanishes, because [D]
    is not the square of a rational). *)
Theorem pell_solve_1_raises_only_assertions fuel D m :
  match pell_solve_1 fuel D m with
  | Raise e =>
      e = AssertionError "" /\ (m = 0 \/ D <= m * m \/ is_square D = true)
  | Ret _ | Timeout => m <> 0 /\ m * m < D /\ is_square D = false
  end.
Proof.
  unfold pell_solve_1.
  destruct (Z.eqb_spec m 0) as [Hm|Hm]; cbn [negb assert bind];
    [split; [reflexivity | left; exact Hm]|].
  destruct (Z.ltb_spec (m * m) D) as [HD|HD]; cbn [assert bind];
    [|split; [reflexivity | right; left; exact HD]].
  destruct (is_square D) eqn:Hsq; cbn [negb assert bind];
    [split; [reflexivity | right; right; reflexivity]|].
  cbv zeta.
  assert (Hr : cf_ready (mk_cf [0; 1] [None; Some (qz 0)] [None; Some (qz 1)]
                               [None; Some (Z.sqrt D)] [1; Z.sqrt D]) 0).
  { exists [], 0, 1, [None], (qz 0), [None], (qz 1), [None], (Z.sqrt D),
           [], 1, (Z.sqrt D).
    split; [repeat split|]. unfold qz, Qeq. cbn. lia. }
  pose proof (cf_loop_ready D ltac:(nia) Hsq fuel _ 0%nat Hr) as Hl.
  change (Z.of_nat 0 + 1) with 1 in Hl.
  destruct (cf_loop fuel D _ 1) as [[st' i']| |]; cbn [bind];
    [|contradiction|repeat split; assumption].
  destruct Hl as (k & Hk & ->).
  destruct Hk as (lb & b2 & b1 & lp & pv & lq & qv & la & av & lg & g2 & g1
                 & (EB & EP & EQ & Ea & EG & Lb & Lg & Lp & Lq & La) & Hq).
  destruct (collect_returns D m st' Hm (range 1 (Z.of_nat k + 1)) []) as (r & ->).
  { intros j Hin. apply in_range in Hin. rewrite EG, EB, !length_app.
    cbn [List.length]. lia. }
  repeat split; assumption.
Qed.

Lemma sign_succ k : (sign (S k) == - sign k)%Q.
Proof.
  unfold sign. rewrite Nat.even_succ, <- Nat.negb_even.
  destruct (Nat.even k); reflexivity.
Qed.

Lemma norm_step (s N0 C N1 qv pnew qnew an Dq : Q) :
  (N0 == s * qv)%Q -> (C == s * pnew)%Q -> (N1 == - s * qnew)%Q ->
  (qnew * qv == Dq - pnew * pnew)%Q ->
  ((an * an * N1 + 2 * an * C + N0) * qnew
   == s * (Dq - (an * qnew - pnew) * (an * qnew - pnew)))%Q.
Proof.
  intros H0 HC H1 HQ. rewrite H0, HC, H1.
  assert (HD : (Dq == qnew * qv + pnew * pnew)%Q) by (rewrite HQ; ring).
  rewrite HD. ring.
Qed.

Lemma cf_step_norms D st k :
  0 <= D -> is_square D = false -> cf_norms D st k ->
  exists st', cf_step D st (Z.of_nat k + 2) = Ret st' /\ cf_norms D st' (S k).
Proof.
  intros HD Hsq (lb & b2 & b1 & lp & pv & lq & qv & la & av & lg & g2 & g1
                 & Hs & Hq & H0 & HC & H1).
  destruct (cf_step_explicit D st k _ _ _ _ _ _ _ _ _ _ _ _ HD Hsq Hs Hq)
    as (anew & Hstep & Hs' & Hq').
  set (pnew := qsub (qmul (qz av) qv) pv) in *.
  set (qnew := Qred (qsub (qz D) (qsquare pnew) / qv)) in *.
  assert (Hp : (pnew == qz av * qv - pv)%Q).
  { unfold pnew, qsub, qmul. rewrite !Qred_correct. reflexivity. }
  assert (HQ : (qnew * qv == qz D - pnew * pnew)%Q).
  { unfold qnew, qsub, qsquare, qmul. rewrite !Qred_correct.
    field. exact Hq. }
  rewrite <- Hp in HC, H1.
  assert (H1' : (qz g1 * qz g1 - qz D * (qz b1 * qz b1) == - sign k * qnew)%Q).
  { apply (Qmult_inj_r _ _ qv Hq). rewrite H1, <- HQ. ring. }
  eexists. split; [exact Hstep|].
  exists (lb ++ [b2]), b1, (anew * b1 + b2), (lp ++ [Some pv]), pnew,
         (lq ++ [Some qv]), qnew, (la ++ [Some av]), anew,
         (lg ++ [g2]), g1, (anew * g1 + g2).
  split; [exact Hs'|]. split; [exact Hq'|].
  assert (Eg : (qz (anew * g1 + g2) == qz anew * qz g1 + qz g2)%Q)
    by (unfold qz; rewrite inject_Z_plus, inject_Z_mult; reflexivity).
  assert (Eb : (qz (anew * b1 + b2) == qz anew * qz b1 + qz b2)%Q)
    by (unfold qz; rewrite inject_Z_plus, inject_Z_mult; reflexivity).
  rewrite Eg, Eb, !sign_succ.
  split; [|split].
  - rewrite H1'. ring.
  - apply Qeq_trans with
      (qz anew * (qz g1 * qz g1 - qz D * (qz b1 * qz b1))
       + (qz g1 * qz g2 - qz D * (qz b1 * qz b2)))%Q; [ring|].
    rewrite H1', HC. ring.
  - apply Qeq_trans with
      ((qz anew * qz anew * (qz g1 * qz g1 - qz D * (qz b1 * qz b1))
        + 2 * qz anew * (qz g1 * qz g2 - qz D * (qz b1 * qz b2))
        + (qz g2 * qz g2 - qz D * (qz b2 * qz b2))) * qnew)%Q; [ring|].
    rewrite (norm_step (sign k) _ _ _ qv pnew qnew (qz anew) (qz D) H0 HC H1' HQ).
    ring.
Qed.

Lemma even_index k : (Z.of_nat k + 1) mod 2 = 1 -> (sign k == 1)%Q.
Proof.
  intros H. unfold sign.
  destruct (Nat.even k) eqn:E; [reflexivity|]. exfalso.
  rewrite <- Nat.negb_odd in E. apply negb_false_iff, Nat.odd_spec in E.
  destruct E as [c ->]. revert H. Z.to_euclidean_division_equations. lia.
Qed.

Lemma cf_loop_unit D : 0 <= D -> is_square D = false -> forall fuel st i,
  cf_norms D st i ->
  match cf_loop fuel D st (Z.of_nat i + 1) with
  | Ret (st', i') =>
      exists k lb b2 b1 lp pv lq qv la av lg g2 g1,
        i' = Z.of_nat k + 1 /\ (1 <= k)%nat
        /\ cf_shape st' k lb b2 b1 lp pv lq qv la av lg g2 g1
        /\ g2 * g2 - D * (b2 * b2) = 1
  | Raise _ => False
  | Timeout => True
  end.
Proof.
  intros HD Hsq. induction fuel as [|f IH]; intros st i Hn; [exact I|].
  cbn [cf_loop]. cbv zeta.
  replace (Z.of_nat i + 1 + 1) with (Z.of_nat i + 2) by ring.
  destruct (cf_step_norms D st i HD Hsq Hn) as (st' & -> & Hn').
  cbn [bind]. pose proof Hn' as Hshape.
  destruct Hshape as (lb & b2 & b1 & lp & pv & lq & qv & la & av & lg & g2 & g1
                 & Hs & Hq & H0 & _).
  pose proof Hs as (_ & _ & EQ & _ & _ & _ & _ & _ & Lq & _).
  unfold idx_some. rewrite EQ. rewrite (idx_at lq) by lia. cbn [bind].
  destruct (Qeq_bool qv 1) eqn:E1; cbn [andb].
  - destruct (Z.eqb_spec ((Z.of_nat i + 2) mod 2) 1) as [E2|_].
    + exists (S i), lb, b2, b1, lp, pv, lq, qv, la, av, lg, g2, g1.
      split; [lia|]. split; [lia|]. split; [exact Hs|].
      apply Qeq_bool_iff in E1.
      replace (Z.of_nat i + 2) with (Z.of_nat (S i) + 1) in E2 by lia.
      rewrite (even_index _ E2), E1 in H0.
      revert H0. unfold qz, Qeq. cbn. lia.
    + replace (Z.of_nat i + 2) with (Z.of_nat (S i) + 1) by lia.
      apply IH. exact Hn'.
  - replace (Z.of_nat i + 2) with (Z.of_nat (S i) + 1) by lia.
    apply IH. exact Hn'.
Qed.

Lemma collect_app D m st js1 : forall js2 sols,
  collect D m st (js1 ++ js2) sols
  = bind (collect D m st js1 sols) (fun sols' => collect D m st js2 sols').
Proof.
  induction js1 as [|j js1 IH]; intros js2 sols; [reflexivity|].
  cbn [app collect].
  destruct (idx (G st) j) as [gj| |]; cbn [bind]; try reflexivity.
  destruct (idx (B st) j) as [bj| |]; cbn [bind]; try reflexivity.
  destruct (qdiv _ _) as [f2| |]; cbn [bind]; try reflexivity.
  destruct (q_is_square f2); apply IH.
Qed.

Lemma range_snoc lo k : lo <= k -> range lo (k + 1) = range lo k ++ [k].
Proof.
  intros H. unfold range.
  replace (Z.to_nat (k + 1 - lo)) with (S (Z.to_nat (k - lo))) by lia.
  rewrite seq_S, map_app. cbn [map Nat.add]. f_equal. f_equal. lia.
Qed.

Lemma qmul_one_integer z : qmul (q_sqrt (Qred (qz 1 / qz 1))) (qz z) = qz z.
Proof.
  change (q_sqrt (Qred (qz 1 / qz 1))) with (1 # 1)%Q.
  unfold qmul.
  destruct (CornacchiaFacts.Qred_of_integer ((1 # 1) * qz z) z) as (Hn & Hd).
  { unfold qz. ring. }
  destruct (Qred ((1 # 1) * qz z)) as [vn vd]. cbn in Hn, Hd. subst.
  reflexivity.
Qed.

(** the loop of [pell_solve_1(D, 1)] stops at a convergent of norm 1, and
    the collection loop appends it last *)
Lemma pell_solve_1_ends_with_unit fuel D sols :
  pell_solve_1 fuel D 1 = Ret sols ->
  exists front g b,
    sols = front ++ [(qz g, qz b)] /\ g * g - D * (b * b) = 1.
Proof.
  unfold pell_solve_1. cbn [Z.eqb negb assert bind].
  destruct (Z.ltb_spec (1 * 1) D) as [HD|HD]; cbn [assert bind];
    [|discriminate].
  destruct (is_square D) eqn:Hsq; cbn [negb assert bind]; [discriminate|].
  cbv zeta.
  assert (Hn : cf_norms D (mk_cf [0; 1] [None; Some (qz 0)] [None; Some (qz 1)]
                                 [None; Some (Z.sqrt D)] [1; Z.sqrt D]) 0).
  { exists [], 0, 1, [None], (qz 0), [None], (qz 1), [None], (Z.sqrt D),
           [], 1, (Z.sqrt D).
    split; [repeat split|]. split; [unfold qz, Qeq; cbn; lia|].
    unfold sign. cbn [Nat.even].
    change (qz 0) with 0%Q. change (qz 1) with 1%Q.
    split; [|split]; ring. }
  pose proof (cf_loop_unit D ltac:(lia) Hsq fuel _ 0%nat Hn) as Hl.
  change (Z.of_nat 0 + 1) with 1 in Hl.
  destruct (cf_loop fuel D _ 1) as [[st' i']| |]; cbn [bind];
    [|contradiction|discriminate].
  destruct Hl as (k & lb & b2 & b1 & lp & pv & lq & qv & la & av & lg & g2 & g1
                  & -> & Hk & Hs & Hunit).
  destruct Hs as (EB & _ & _ & _ & EG & Lb & Lg & _).
  rewrite range_snoc by lia. rewrite collect_app. intros H.
  apply bind_Ret_inv in H. destruct H as (front & _ & H).
  cbn [collect] in H. rewrite EG, EB in H.
  rewrite (idx_at lg) in H by lia. cbn [bind] in H.
  rewrite (idx_at lb) in H by lia. cbn [bind] in H.
  replace (g2 ^ 2 - D * b2 ^ 2) with 1 in H by (rewrite <- Hunit; ring).
  change (qdiv (qz 1) (qz 1)) with (Ret (Qred (qz 1 / qz 1))) in H.
  cbn [bind] in H.
  change (q_is_square (Qred (qz 1 / qz 1))) with true in H. cbv iota zeta in H.
  rewrite !qmul_one_integer in H. injection H as <-.
  exists front, g2, b2. split; [reflexivity | exact Hunit].
Qed.

(** X19: the list returned by [pell_solve_1(D, 1)] is never empty, so the
    [pell_solve_1(D, 1)[0]] of [pell_solve_2] and [gen_curve] cannot raise
    [IndexError]; and its last pair is a pair of integers, the convergent
    [(G[i-1], B[i-1])] at which the loop stopped, with
    [x^2 - D*y^2 = 1] exactly. *)
Theorem pell_solve_1_unit_is_last fuel D sols :
  pell_solve_1 fuel D 1 = Ret sols ->
  (exists first, idx sols 0 = Ret first)
  /\ exists front g b,
       sols = front ++ [(qz g, qz b)] /\ g * g - D * (b * b) = 1.
Proof.
  intros H. pose proof (pell_solve_1_ends_with_unit _ _ _ H) as Hlast.
  split; [|exact Hlast].
  destruct Hlast as (front & g & b & -> & _).
  destruct front as [|x front]; eexists; reflexivity.
Qed.

Lemma pell_solve_1_unit_is_last_witness :
  pell_solve_1 10 21 1 = Ret [(qz 10, qz 2); (qz 46, qz 10); (qz 55, qz 12)]
  /\ (exists first,
        idx [(qz 10, qz 2); (qz 46, qz 10); (qz 55, qz 12)] 0 = Ret first)
  /\ exists front g b,
       [(qz 10, qz 2); (qz 46, qz 10); (qz 55, qz 12)]
         = front ++ [(qz g, qz b)]
       /\ g * g - 21 * (b * b) = 1.
Proof.
  split; [reflexivity|].
  apply (pell_solve_1_unit_is_last 10 21). reflexivity.
Defined.

(** X20: [pell_solve_2(D, m)] needs [D >= 2]: for [D <= 1], and so for
    every negative [D], which its own three checks let through when [D] is
    not a square, it raises [AssertionError], at the latest inside
    [pell_solve_1(D, 1)], whose check [D > 1] fails. *)
Theorem pell_solve_2_needs_D_above_1 fuel D m :
  D <= 1 -> pell_solve_2 fuel D m = Raise (AssertionError "").
Proof.
  intros HD. unfold pell_solve_2.
  destruct (m =? 0); cbn [negb assert bind]; [reflexivity|].
  destruct (D <=? m ^ 2); cbn [assert bind]; [|reflexivity].
  destruct (is_square D); cbn [negb assert bind]; [reflexivity|].
  unfold pell_solve_1. cbn [Z.eqb negb assert bind].
  destruct (Z.ltb_spec (1 * 1) D) as [C|_]; [lia|]. reflexivity.
Qed.

Lemma pell_solve_2_needs_D_above_1_witness :
  -3 <= 1 /\ (-3 <=? 4 ^ 2) = true /\ is_square (-3) = false
  /\ pell_solve_2 10 (-3) 4 = Raise (AssertionError "").
Proof.
  split; [lia|]. split; [reflexivity|]. split; [reflexivity|].
  apply (pell_solve_2_needs_D_above_1 10 (-3) 4). lia.
Defined.

End MntExtras.

(** ** cocks_pinch.py *)

Module CocksPinchExtras.
Import CocksPinch.

Lemma find_prime_loop_spec B : forall rnd p0 p,
  find_prime_loop B p0 rnd = Ret p ->
  p mod B = 1 /\
  (p = p0 \/
   exists pre post, rnd = pre ++ p :: post
     /\ p0 mod B <> 1 /\ Forall (fun q => q mod B <> 1) pre).
Proof.
  induction rnd as [|q rnd IH]; intros p0 p H; cbn [find_prime_loop] in H;
    destruct (Z.eqb_spec B 0) as [|HB]; try discriminate;
    destruct (Z.eqb_spec (p0 mod B) 1) as [E1|E1]; try discriminate.
  - injection H as <-. split; [exact E1 | left; reflexivity].
  - injection H as <-. split; [exact E1 | left; reflexivity].
  - destruct (IH q p H) as (Hp & [->|(pre & post & -> & Hq & Hpre)]).
    + split; [exact Hp|]. right. exists [], rnd.
      split; [reflexivity|]. split; [exact E1 | constructor].
    + split; [exact Hp|]. right. exists (q :: pre), post.
      split; [reflexivity|]. split; [exact E1|]. constructor; assumption.
Qed.

(** X4: [find_prime(num_bits, B)] returns the first prime drawn that is
    [1 (mod B)]: the value returned is a prime of the requested size with
    [B | p - 1], every prime drawn before it was rejected, and a value is
    returned only for [B >= 2] (for [B = 1] and for negative [B] the remainder
    is never 1 and the loop does not end). *)
Theorem find_prime_first_match num_bits B rnd p :
  Forall (random_prime_sample num_bits) rnd ->
  find_prime num_bits B rnd = Ret p ->
  2 <= B /\ prime p /\ 2 ^ (num_bits - 1) <= p <= 2 ^ num_bits
  /\ (B | p - 1)
  /\ exists pre post, rnd = pre ++ p :: post
       /\ Forall (fun q => q mod B <> 1) pre.
Proof.
  intros Hrnd H. unfold find_prime in H.
  assert (HB0 : B <> 0).
  { destruct rnd; cbn [find_prime_loop] in H;
      destruct (Z.eqb_spec B 0); [discriminate|assumption|discriminate|assumption]. }
  destruct (find_prime_loop_spec B rnd 0 p H) as (Hp & [->|(pre & post & -> & _ & Hpre)]).
  { rewrite Z.mod_0_l in Hp by exact HB0. discriminate. }
  assert (HB : 2 <= B).
  { pose proof (Z.mod_pos_bound p B). pose proof (Z.mod_neg_bound p B).
    destruct (Z.eq_dec B 1) as [->|]; [rewrite Z.mod_1_r in Hp; discriminate|].
    lia. }
  rewrite Forall_forall in Hrnd.
  destruct (Hrnd p) as (Hprime & Hsize).
  { apply in_or_app. right. left. reflexivity. }
  split; [exact HB|]. split; [exact Hprime|]. split; [exact Hsize|].
  split.
  - exists (p / B). pose proof (Z.div_mod p B HB0). lia.
  - exists pre, post. split; [reflexivity | exact Hpre].
Qed.

Lemma prime_13 : prime 13.
Proof. apply is_prime_spec. reflexivity. Qed.

Lemma prime_11 : prime 11.
Proof. apply is_prime_spec. reflexivity. Qed.

Lemma find_prime_first_match_witness :
  find_prime 4 12 [11; 13] = Ret 13 /\
  2 <= 12 /\ prime 13 /\ 2 ^ (4 - 1) <= 13 <= 2 ^ 4
  /\ (12 | 13 - 1)
  /\ exists pre post, [11; 13] = pre ++ 13 :: post
       /\ Forall (fun q => q mod 12 <> 1) pre.
Proof.
  split; [reflexivity|].
  apply (find_prime_first_match 4 12 [11; 13] 13); [|reflexivity].
  constructor; [|constructor; [|constructor]].
  - split; [exact prime_11 | simpl; lia].
  - split; [exact prime_13 | simpl; lia].
Defined.

(** X5: the degenerate degrees.  [find_prime(num_bits, 0)] raises
    [ZeroDivisionError] before drawing anything, and for [B = 1] or
    [B < 0] no sequence of draws makes it return or raise: it only ever runs
    out of samples. *)
Theorem find_prime_degenerate num_bits B rnd :
  (B = 0 -> find_prime num_bits B rnd = Raise ZeroDivisionError)
  /\ (B <= 1 -> B <> 0 -> find_prime num_bits B rnd = Timeout).
Proof.
  unfold find_prime. split.
  - intros ->. destruct rnd; reflexivity.
  - intros HB HB0. generalize 0. induction rnd as [|q rnd IH]; intros p0;
      cbn [find_prime_loop]; destruct (Z.eqb_spec B 0) as [|_]; try contradiction;
      (destruct (Z.eqb_spec (p0 mod B) 1) as [E|_];
       [ exfalso; pose proof (Z.mod_neg_bound p0 B);
         destruct (Z.eq_dec B 1) as [->|]; [rewrite Z.mod_1_r in E; discriminate | lia]
       | ]).
    + reflexivity.
    + apply IH.
Qed.

End CocksPinchExtras.

(** ** barreto_naehrig.py *)

Module BarretoNaehrigExtras.
Import BarretoNaehrig.

(** how the inner loop ends: by its bit-length test, with the flag as it
    was, or at one of the two [break]s, with a prime pair *)
Lemma scan_ends p_max : forall fuel st s,
  scan fuel p_max st = Ret s ->
  u st <= u s /\
  ((p_max < bit_length (p s) /\ found_curve s = found_curve st) \/
   (found_curve s = true /\
    exists nv, n s = Some nv
      /\ is_prime (p s) = true /\ is_prime nv = true
      /\ (p s = P (- u s) \/ p s = P (u s))
      /\ nv = p s + 1 - (6 * (u s * u s) + 1))).
Proof.
  induction fuel as [|f IH]; intros st s H; [discriminate|].
  cbn [scan] in H. cbv zeta in H.
  destruct (Z.leb_spec (bit_length (p st)) p_max) as [Hb|Hb].
  - destruct (is_prime (P (- u st)) && is_prime (P (- u st) + 1 - (6 * (u st * u st) + 1)))
      eqn:E1.
    { injection H as <-. cbn [u p n found_curve].
      apply andb_true_iff in E1. destruct E1 as [Ea Eb].
      split; [lia|]. right. split; [reflexivity|].
      eexists. split; [reflexivity|]. repeat split; auto. }
    destruct (is_prime (P (u st)) && is_prime (P (u st) + 1 - (6 * (u st * u st) + 1)))
      eqn:E2.
    { injection H as <-. cbn [u p n found_curve].
      apply andb_true_iff in E2. destruct E2 as [Ea Eb].
      split; [lia|]. right. split; [reflexivity|].
      eexists. split; [reflexivity|]. repeat split; auto. }
    apply IH in H. cbn [u p n found_curve] in H.
    destruct H as (Hu & Hc). split; [lia | exact Hc].
  - injection H as <-. split; [lia|]. left. split; [lia | reflexivity].
Qed.

Section Runs.

Variable find_curve : Z -> Z -> outcome (EllipticCurve * point).
Variable show : EllipticCurve -> string.

Lemma next_with_flag fuel p_max st :
  found_curve st = true ->
  match next find_curve fuel p_max st with
  | Ret StopIteration => False
  | Ret (Yield _ st') => found_curve st' = true
  | _ => True
  end.
Proof.
  intros Hf. unfold next.
  destruct (scan fuel p_max st) as [s| |] eqn:Es; cbn [bind]; try exact I.
  apply scan_ends in Es. destruct Es as (_ & [(_ & Ek)|(Ek & _)]);
    [rewrite Hf in Ek|]; rewrite Ek; cbn [negb];
    (destruct (n s) as [nv|]; [|exact I]);
    (destruct (find_curve (p s) nv) as [[E G]| |]; cbn [bind]; [reflexivity | exact I | exact I]).
Qed.

Lemma next_yield_flag fuel p_max st c st' :
  next find_curve fuel p_max st = Ret (Yield c st') ->
  found_curve st' = true /\ exists pv E nv G, c = Some (pv, E, nv, G).
Proof.
  unfold next. destruct (scan fuel p_max st) as [s| |]; try discriminate.
  cbn [bind]. destruct (negb (found_curve s)); [discriminate|].
  destruct (n s) as [nv|]; [|discriminate].
  destruct (find_curve (p s) nv) as [[E G]| |]; try discriminate.
  cbn [bind]. intros H. injection H as <- <-. split; [reflexivity|].
  exists (p s), E, nv, G. reflexivity.
Qed.

Lemma main_loop_output rounds : forall fuel p_max remaining st out f,
  1 <= remaining ->
  main_loop find_curve show rounds fuel p_max remaining st out = Ret f ->
  exists Es, stdout f = out ++ map show Es
    /\ Z.of_nat (List.length Es) <= remaining
    /\ ((uncaught f = None /\ exit_status f = 0
         /\ ((found_curve st = false /\ Es = [])
             \/ Z.of_nat (List.length Es) = remaining))
        \/ (exists e, uncaught f = Some e /\ exit_status f = 1)).
Proof.
  induction rounds as [|k IH]; intros fuel p_max remaining st out f Hr H;
    [discriminate|].
  cbn [main_loop] in H.
  destruct (next find_curve fuel p_max st) as [[c st'|]|e|] eqn:En.
  - destruct (next_yield_flag _ _ _ _ _ En) as (Hf' & pv & E & nv & G & ->).
    cbv zeta in H. destruct (Z.eqb_spec (remaining - 1) 0) as [E0|E0].
    + injection H as <-. exists [E]. cbn [stdout uncaught exit_status map List.length].
      split; [reflexivity|]. split; [lia|]. left. repeat split. right. lia.
    + apply IH in H; [|lia].
      destruct H as (Es & Hout & Hlen & Hc). exists (E :: Es).
      cbn [map List.length]. split.
      { rewrite Hout, <- app_assoc. reflexivity. }
      split; [lia|]. destruct Hc as [(Hu & Hx & Hd)|Hc]; [|right; exact Hc].
      left. split; [exact Hu|]. split; [exact Hx|]. right.
      destruct Hd as [(Hd & _)|Hd]; [congruence | lia].
  - injection H as <-. exists []. cbn [stdout uncaught exit_status map List.length].
    split; [symmetry; apply app_nil_r|]. split; [lia|]. left. repeat split.
    left. split; [|reflexivity].
    destruct (found_curve st) eqn:Ef; [|reflexivity].
    pose proof (next_with_flag fuel p_max st Ef) as Hn.
    rewrite En in Hn. contradiction.
  - injection H as <-. exists []. cbn [stdout uncaught exit_status map List.length].
    split; [symmetry; apply app_nil_r|]. split; [lia|]. right.
    exists e. split; reflexivity.
  - discriminate.
Qed.


(** the Barreto-Naehrig polynomials: with [n = p - 6u^2] and [p = P(-u)] or
    [P(u)], [n] divides the twelfth cyclotomic polynomial at [p], and
    [4p - t^2 = 3 V^2] for the trace [t = 6u^2 + 1] *)
Lemma bn_polynomials w pv nv :
  pv = P (- w) \/ pv = P w -> nv = pv + 1 - (6 * (w * w) + 1) ->
  (nv | pv ^ 4 - pv ^ 2 + 1)
  /\ exists V, 4 * pv - (pv + 1 - nv) ^ 2 = 3 * V ^ 2.
Proof.
  intros [->| ->] ->; unfold P; split.
  - exists ((36 * w ^ 4 - 36 * w ^ 3 + 24 * w ^ 2 - 6 * w + 1) ^ 3
            + (36 * w ^ 4 - 36 * w ^ 3 + 24 * w ^ 2 - 6 * w + 1) ^ 2
              * (6 * w ^ 2)
            + (36 * w ^ 4 - 36 * w ^ 3 + 24 * w ^ 2 - 6 * w + 1)
              * (36 * w ^ 4 - 1)
            + 36 * w ^ 4 + 36 * w ^ 3 + 18 * w ^ 2 + 6 * w + 1
            + 216 * w ^ 6 - 6 * w ^ 2). ring.
  - exists (6 * w ^ 2 - 4 * w + 1). ring.
  - exists ((36 * w ^ 4 + 36 * w ^ 3 + 24 * w ^ 2 + 6 * w + 1) ^ 3
            + (36 * w ^ 4 + 36 * w ^ 3 + 24 * w ^ 2 + 6 * w + 1) ^ 2
              * (6 * w ^ 2)
            + (36 * w ^ 4 + 36 * w ^ 3 + 24 * w ^ 2 + 6 * w + 1)
              * (36 * w ^ 4 - 1)
            + 36 * w ^ 4 - 36 * w ^ 3 + 18 * w ^ 2 - 6 * w + 1
            + 216 * w ^ 6 - 6 * w ^ 2). ring.
  - exists (6 * w ^ 2 + 4 * w + 1). ring.
Qed.

(** X7: once it has yielded, the generator never finishes, because the flag
    [found_curve] is never cleared: no later [next()] ends the iteration, and
    when the [p] just yielded is longer than [p_max] bits the next call
    builds and yields a curve for the very same [(p, n)] again. *)
Theorem generator_never_ends_after_yield fuel fuel' p_max st pv E nv G st' :
  next find_curve fuel p_max st = Ret (Yield (Some (pv, E, nv, G)) st') ->
  next find_curve fuel' p_max st' <> Ret StopIteration
  /\ (p_max < bit_length pv ->
      next find_curve (S fuel') p_max st'
      = bind (find_curve pv nv) (fun '(E', G') =>
          Ret (Yield (Some (pv, E', nv, G'))
                     (mk_locals (u st' + 1) pv (Some nv) true)))).
Proof.
  intros H. split.
  - destruct (next_yield_flag _ _ _ _ _ H) as (Hf & _).
    pose proof (next_with_flag fuel' p_max st' Hf) as Hn.
    intros E'. rewrite E' in Hn. exact Hn.
  - intros Hb. revert H. unfold next at 1.
    destruct (scan fuel p_max st) as [s| |]; try discriminate.
    cbn [bind]. destruct (negb (found_curve s)); [discriminate|].
    destruct (n s) as [nv'|] eqn:En; [|discriminate].
    destruct (find_curve (p s) nv') as [[E0 G0]| |]; try discriminate.
    cbn [bind]. intros H. injection H as Hp _ Hn _ <-. subst pv nv'.
    unfold next. cbn [scan p u n found_curve]. cbv zeta.
    destruct (Z.leb_spec (bit_length (p s)) p_max) as [C|_]; [lia|].
    cbn [bind found_curve negb n p u]. reflexivity.
Qed.

(** X8: the script, asked for [num_curves >= 1] curves, prints only curves
    (never the diagnostic), at most [num_curves] of them; it ends with
    status 0 and no exception only after printing either nothing at all or
    exactly [num_curves] curves, and with status 1 only by an uncaught
    exception. *)
Theorem main_prints_all_or_nothing rounds fuel num_curves m p_max f :
  1 <= num_curves ->
  main find_curve show rounds fuel num_curves m p_max = Ret f ->
  exists Es, stdout f = map show Es
    /\ Z.of_nat (List.length Es) <= num_curves
    /\ ((uncaught f = None /\ exit_status f = 0
         /\ (Es = [] \/ Z.of_nat (List.length Es) = num_curves))
        \/ (exists e, uncaught f = Some e /\ exit_status f = 1)).
Proof.
  intros Hn H. unfold main in H.
  destruct (main_loop_output _ _ _ _ _ _ _ Hn H) as (Es & Hout & Hlen & Hc).
  exists Es. split; [exact Hout|]. split; [exact Hlen|].
  destruct Hc as [(Hu & Hx & Hd)|Hc]; [|right; exact Hc].
  left. split; [exact Hu|]. split; [exact Hx|].
  destruct Hd as [(_ & Hd)|Hd]; [left | right]; exact Hd.
Qed.

(** X21: the pair [(p, n)] of the first tuple yielded has embedding degree
    dividing 12 by construction: [n] divides [p^4 - p^2 + 1], the twelfth
    cyclotomic polynomial at [p], hence [p^12 - 1]; the trace
    [t = p + 1 - n] satisfies the CM equation [4p - t^2 = 3 V^2] (so the
    Hasse bound holds); and on a curve over [GF(p)] with exactly [n] points
    the check [is_embedding_degree(E, 12)] succeeds. *)
Theorem first_yield_has_degree_12 fuel m p_max pv E nv G st' :
  next find_curve fuel p_max (gen_curve m)
    = Ret (Yield (Some (pv, E, nv, G)) st') ->
  (nv | pv ^ 4 - pv ^ 2 + 1)
  /\ (nv | pv ^ 12 - 1)
  /\ (exists V, 4 * pv - (pv + 1 - nv) ^ 2 = 3 * V ^ 2)
  /\ (base_field_order E = pv -> order E = nv ->
      Utils.is_embedding_degree E 12 = true).
Proof.
  unfold next. destruct (scan fuel p_max (gen_curve m)) as [s| |] eqn:Es;
    try discriminate.
  cbn [bind]. apply scan_ends in Es. cbn [gen_curve u found_curve] in Es.
  destruct Es as (_ & [(_ & Ek)|(Ek & nv' & En & _ & _ & Hpu & Hnv)]);
    rewrite Ek; cbn [negb]; [discriminate|].
  rewrite En. destruct (find_curve (p s) nv') as [[E0 G0]| |];
    try discriminate.
  cbn [bind]. intros H. injection H as <- <- <- <- <-.
  rename nv' into nv.
  destruct (bn_polynomials (u s) (p s) nv Hpu Hnv) as (Hphi & HV).
  assert (H12 : (nv | p s ^ 12 - 1)).
  { eapply Z.divide_trans; [exact Hphi|].
    exists (p s ^ 8 + p s ^ 6 - p s ^ 2 - 1). ring. }
  split; [exact Hphi|]. split; [exact H12|]. split; [exact HV|].
  intros Hb Ho. unfold Utils.is_embedding_degree. rewrite Hb, Ho.
  apply Z.eqb_eq. apply Z.mod_divide; [|exact H12].
  pose proof (UtilsFacts.order_pos E0). lia.
Qed.

End Runs.

Lemma first_yield_has_degree_12_witness :
  let find_curve := fun _ _ : Z => Ret (mk_curve 19 0 3, Some (1, 2)) in
  next find_curve 2 4 (gen_curve 5)
    = Ret (Yield (Some (19, mk_curve 19 0 3, 13, Some (1, 2)))
                 (mk_locals 2 19 (Some 13) true))
  /\ base_field_order (mk_curve 19 0 3) = 19 /\ order (mk_curve 19 0 3) = 13
  /\ (13 | 19 ^ 4 - 19 ^ 2 + 1)
  /\ (13 | 19 ^ 12 - 1)
  /\ (exists V, 4 * 19 - (19 + 1 - 13) ^ 2 = 3 * V ^ 2)
  /\ (base_field_order (mk_curve 19 0 3) = 19 ->
      order (mk_curve 19 0 3) = 13 ->
      Utils.is_embedding_degree (mk_curve 19 0 3) 12 = true).
Proof.
  intros find_curve. split; [reflexivity|]. split; [reflexivity|].
  split; [reflexivity|].
  apply (first_yield_has_degree_12 find_curve 2 5 4 19 (mk_curve 19 0 3) 13
           (Some (1, 2)) (mk_locals 2 19 (Some 13) true)).
  reflexivity.
Defined.


Lemma generator_never_ends_after_yield_witness :
  let find_curve := fun _ _ : Z => Ret (mk_curve 19 0 3, Some (1, 2)) in
  next find_curve 2 4 (gen_curve 5)
    = Ret (Yield (Some (19, mk_curve 19 0 3, 13, Some (1, 2)))
                 (mk_locals 2 19 (Some 13) true))
  /\ next find_curve 1 4 (mk_locals 2 19 (Some 13) true) <> Ret StopIteration
  /\ (4 < bit_length 19 ->
      next find_curve 2 4 (mk_locals 2 19 (Some 13) true)
      = bind (find_curve 19 13) (fun '(E', G') =>
          Ret (Yield (Some (19, E', 13, G'))
                     (mk_locals (u (mk_locals 2 19 (Some 13) true) + 1) 19
                                (Some 13) true)))).
Proof.
  intros find_curve. split; [reflexivity|].
  apply (generator_never_ends_after_yield find_curve 2 1 4 (gen_curve 5)
           19 (mk_curve 19 0 3) 13 (Some (1, 2))).
  reflexivity.
Defined.

Lemma main_prints_all_or_nothing_witness :
  let find_curve := fun _ _ : Z => Ret (mk_curve 19 0 3, Some (1, 2)) in
  let show := fun _ : EllipticCurve => "E"%string in
  let f := mk_finished ["E"%string; "E"%string] 0 None in
  1 <= 2
  /\ main find_curve show 2 2 2 5 4 = Ret f
  /\ exists Es, stdout f = map show Es
    /\ Z.of_nat (List.length Es) <= 2
    /\ ((uncaught f = None /\ exit_status f = 0
         /\ (Es = [] \/ Z.of_nat (List.length Es) = 2))
        \/ (exists e, uncaught f = Some e /\ exit_status f = 1)).
Proof.
  intros find_curve show f. split; [lia|]. split; [reflexivity|].
  apply (main_prints_all_or_nothing find_curve show 2 2 2 5 4 f);
    [lia | reflexivity].
Defined.

End BarretoNaehrigExtras.

(** ** utils.py *)

Module UtilsExtras.
Import Utils.

Lemma is_embedding_degree_divides E k :
  is_embedding_degree E k = true <-> (order E | base_field_order E ^ k - 1).
Proof.
  unfold is_embedding_degree. rewrite Z.eqb_eq. apply Z.mod_divide.
  unfold order. lia.
Qed.

(** X9: a curve whose group order has a factor in common with the field
    characteristic (an anomalous curve, [#E = p], for one) is accepted for no
    degree [k >= 1]. *)
Theorem is_embedding_degree_anomalous E k :
  1 < Z.gcd (base_field_order E) (order E) -> 1 <= k ->
  is_embedding_degree E k = false.
Proof.
  intros Hg Hk. destruct (is_embedding_degree E k) eqn:H; [|reflexivity].
  exfalso. apply is_embedding_degree_divides in H.
  set (q := base_field_order E) in *. set (g := Z.gcd q (order E)) in *.
  assert (Hgq : (g | q)) by apply Z.gcd_divide_l.
  assert (Hgo : (g | order E)) by apply Z.gcd_divide_r.
  assert (Hpow : (g | q ^ k)).
  { replace k with (Z.succ (k - 1)) by lia. rewrite Z.pow_succ_r by lia.
    apply Z.divide_mul_l. exact Hgq. }
  assert (H1 : (g | 1)).
  { replace 1 with (q ^ k - (q ^ k - 1)) by ring.
    apply Z.divide_sub_r; [exact Hpow|].
    eapply Z.divide_trans; [exact Hgo | exact H]. }
  apply Z.divide_1_r_nonneg in H1; lia.
Qed.

Lemma is_embedding_degree_anomalous_witness :
  order (mk_curve 7 0 5) = 7
  /\ 1 < Z.gcd (base_field_order (mk_curve 7 0 5)) (order (mk_curve 7 0 5))
  /\ 1 <= 12
  /\ is_embedding_degree (mk_curve 7 0 5) 12 = false.
Proof.
  split; [reflexivity|]. split; [reflexivity|]. split; [lia|].
  apply (is_embedding_degree_anomalous (mk_curve 7 0 5) 12);
    [reflexivity | lia].
Defined.

(** X10: a curve with [p + 1] points (a supersingular curve over a prime
    field, [p > 3]) is accepted for every even degree, the embedding degree
    2 and all its multiples. *)
Theorem is_embedding_degree_supersingular E k :
  order E = base_field_order E + 1 -> 0 <= k ->
  is_embedding_degree E (2 * k) = true.
Proof.
  intros Ho Hk. apply is_embedding_degree_divides. rewrite Ho.
  set (q := base_field_order E). rewrite Z.pow_mul_r by lia.
  eapply Z.divide_trans; [|apply UtilsFacts.pred_divides_pow_pred; exact Hk].
  exists (q - 1). ring.
Qed.

Lemma is_embedding_degree_supersingular_witness :
  order (mk_curve 7 1 0) = base_field_order (mk_curve 7 1 0) + 1
  /\ 0 <= 3
  /\ is_embedding_degree (mk_curve 7 1 0) (2 * 3) = true.
Proof.
  split; [reflexivity|]. split; [lia|].
  apply (is_embedding_degree_supersingular (mk_curve 7 1 0) 3);
    [reflexivity | lia].
Defined.

End UtilsExtras.

(** ** The curve construction of complex_multiplication.py and
    cocks_pinch.py *)

Module CurveExtras.
Import CurveFacts.

Section Congruences.

Variable p : Z.
Hypothesis p_prime : prime p.

#[local] Instance eqm_equivalence : Equivalence (eqm p) := eqm_setoid p.
#[local] Instance add_eqm : Proper (eqm p ==> eqm p ==> eqm p) Z.add := Zplus_eqm p.
#[local] Instance sub_eqm : Proper (eqm p ==> eqm p ==> eqm p) Z.sub := Zminus_eqm p.
#[local] Instance mul_eqm : Proper (eqm p ==> eqm p ==> eqm p) Z.mul := Zmult_eqm p.

Lemma eqm_divide a b : eqm p a b <-> (p | a - b).
Proof.
  pose proof (prime_ge_2 _ p_prime) as H2. unfold eqm. split.
  - intros H. apply Z.mod_divide; [lia|].
    rewrite Zminus_mod, H, Z.sub_diag. apply Z.mod_0_l. lia.
  - intros [c Hc]. replace a with (b + c * p) by lia. apply Z_mod_plus_full.
Qed.

Lemma eqm_zero a : eqm p a 0 <-> (p | a).
Proof. rewrite eqm_divide, Z.sub_0_r. reflexivity. Qed.

(** cancellation of a unit *)
Lemma eqm_cancel k a b : ~ (p | k) -> eqm p (k * a) (k * b) -> eqm p a b.
Proof.
  intros Hk H. apply eqm_divide. apply eqm_divide in H.
  replace (k * a - k * b) with (k * (a - b)) in H by ring.
  apply prime_mult in H; [|exact p_prime]. destruct H; [contradiction|assumption].
Qed.

Lemma not_divide_small : 3 < p -> ~ (p | 2) /\ ~ (p | 3).
Proof.
  intros H3. split; intros H; apply Z.divide_pos_le in H; lia.
Qed.

Lemma not_divide_mul a b : ~ (p | a) -> ~ (p | b) -> ~ (p | a * b).
Proof.
  intros Ha Hb H. apply prime_mult in H; [|exact p_prime]. tauto.
Qed.

Lemma not_divide_mod a : a mod p <> 0 <-> ~ (p | a).
Proof.
  pose proof (prime_ge_2 _ p_prime) as H2.
  rewrite <- Z.mod_divide by lia. reflexivity.
Qed.

Lemma cube_eqm a b : eqm p a b -> eqm p (a ^ 3) (b ^ 3).
Proof.
  intros H. replace (a ^ 3) with (a * a * a) by ring.
  replace (b ^ 3) with (b * b * b) by ring. rewrite H. reflexivity.
Qed.

Lemma square_eqm a b : eqm p a b -> eqm p (a ^ 2) (b ^ 2).
Proof.
  intros H. replace (a ^ 2) with (a * a) by ring.
  replace (b ^ 2) with (b * b) by ring. rewrite H. reflexivity.
Qed.

Lemma discriminant_eqm a a' b b' :
  eqm p a a' -> eqm p b b' ->
  eqm p (4 * a ^ 3 + 27 * b ^ 2) (4 * a' ^ 3 + 27 * b' ^ 2).
Proof.
  intros Ha Hb. rewrite (cube_eqm _ _ Ha), (square_eqm _ _ Hb). reflexivity.
Qed.

(** the generic branch: with [c4 * (1728 - j0) = 3 c^2 j0] and
    [c6 * (1728 - j0) = 2 c^3 j0] in [GF(p)], the discriminant times
    [(1728 - j0)^3] is [2^8 * 3^6 * c^6 * j0^2] *)
Lemma generic_discriminant j0 c c4 c6 :
  eqm p (c4 * (1728 - j0)) (3 * c ^ 2 * j0) ->
  eqm p (c6 * (1728 - j0)) (2 * c ^ 3 * j0) ->
  eqm p ((1728 - j0) ^ 3 * (4 * c4 ^ 3 + 27 * c6 ^ 2))
        (186624 * c ^ 6 * j0 ^ 2)
  /\ eqm p ((1728 - j0) ^ 3 * (1728 * (4 * c4 ^ 3)))
           ((1728 - j0) ^ 3 * (j0 * (4 * c4 ^ 3 + 27 * c6 ^ 2))).
Proof.
  intros H4 H6. set (k := 1728 - j0) in *.
  assert (E3 : eqm p ((c4 * k) ^ 3) ((3 * c ^ 2 * j0) ^ 3))
    by (apply cube_eqm; exact H4).
  assert (E2 : eqm p ((c6 * k) ^ 2) ((2 * c ^ 3 * j0) ^ 2))
    by (apply square_eqm; exact H6).
  assert (Ed : eqm p (k ^ 3 * (4 * c4 ^ 3 + 27 * c6 ^ 2))
                     (186624 * c ^ 6 * j0 ^ 2)).
  { replace (k ^ 3 * (4 * c4 ^ 3 + 27 * c6 ^ 2))
      with (4 * (c4 * k) ^ 3 + 27 * k * (c6 * k) ^ 2) by ring.
    rewrite E3, E2.
    replace (4 * (3 * c ^ 2 * j0) ^ 3 + 27 * k * (2 * c ^ 3 * j0) ^ 2)
      with (186624 * c ^ 6 * j0 ^ 2) by (unfold k; ring).
    reflexivity. }
  split; [exact Ed|].
  replace (k ^ 3 * (j0 * (4 * c4 ^ 3 + 27 * c6 ^ 2)))
    with (j0 * (k ^ 3 * (4 * c4 ^ 3 + 27 * c6 ^ 2))) by ring.
  rewrite Ed.
  replace (k ^ 3 * (1728 * (4 * c4 ^ 3))) with (6912 * (c4 * k) ^ 3) by ring.
  rewrite E3.
  replace (6912 * (3 * c ^ 2 * j0) ^ 3)
    with (j0 * (186624 * c ^ 6 * j0 ^ 2)) by ring.
  reflexivity.
Qed.

Lemma not_divide_pow a n : ~ (p | a) -> ~ (p | a ^ Z.of_nat n).
Proof.
  intros Ha. induction n as [|n IH].
  - simpl. intros H. apply Z.divide_1_r_nonneg in H;
      pose proof (prime_ge_2 _ p_prime); lia.
  - rewrite Nat2Z.inj_succ, Z.pow_succ_r by lia.
    apply not_divide_mul; assumption.
Qed.

Lemma not_divide_const : 3 < p -> ~ (p | 186624) /\ ~ (p | 16) /\ ~ (p | 27)
                                  /\ ~ (p | 4).
Proof.
  intros H3. destruct (not_divide_small H3) as [N2 N3].
  pose proof (not_divide_pow 2 8 N2) as A8.
  pose proof (not_divide_pow 3 6 N3) as B6.
  pose proof (not_divide_mul _ _ A8 B6) as AB.
  pose proof (not_divide_pow 2 4 N2) as A4.
  pose proof (not_divide_pow 3 3 N3) as B3.
  pose proof (not_divide_pow 2 2 N2) as A2.
  repeat split; assumption.
Qed.

Lemma elliptic_curve_accepts j0 c4 c6 :
  3 < p ->
  ~ (p | 4 * c4 ^ 3 + 27 * c6 ^ 2) ->
  eqm p (1728 * (4 * c4 ^ 3)) (j0 * (4 * c4 ^ 3 + 27 * c6 ^ 2)) ->
  exists E, elliptic_curve p c4 c6 = Ret E /\ base_field_order E = p
    /\ 0 <= a4 E < p /\ 0 <= a6 E < p
    /\ (4 * a4 E ^ 3 + 27 * a6 E ^ 2) mod p <> 0
    /\ (1728 * (4 * a4 E ^ 3)) mod p
       = (j0 * (4 * a4 E ^ 3 + 27 * a6 E ^ 2)) mod p.
Proof.
  intros H3 Hd Hj. destruct (not_divide_const H3) as (_ & N16 & _ & _).
  assert (Hp : 0 < p) by lia.
  unfold elliptic_curve.
  destruct (Z.eqb_spec ((16 * (4 * c4 ^ 3 + 27 * c6 ^ 2)) mod p) 0) as [E|_].
  { exfalso. apply Z.mod_divide in E; [|lia].
    exact (not_divide_mul _ _ N16 Hd E). }
  eexists. split; [reflexivity|]. cbn [base_field_order a4 a6].
  split; [reflexivity|].
  split; [apply Z.mod_pos_bound; exact Hp|].
  split; [apply Z.mod_pos_bound; exact Hp|].
  pose proof (Zmod_eqm p c4) as E4. pose proof (Zmod_eqm p c6) as E6.
  pose proof (discriminant_eqm _ _ _ _ E4 E6) as Ed.
  split.
  - apply not_divide_mod. intros H. apply Hd.
    apply eqm_zero. rewrite <- Ed. apply eqm_zero. exact H.
  - change (eqm p (1728 * (4 * (c4 mod p) ^ 3))
                  (j0 * (4 * (c4 mod p) ^ 3 + 27 * (c6 mod p) ^ 2))).
    rewrite Ed, (cube_eqm _ _ E4). exact Hj.
Qed.

(** X11: over a prime field of characteristic above 3 the construction never
    fails for a nonzero [c], and the curve it builds is non-singular and has
    the j-invariant asked for: [1728 * 4*a4^3 = j0 * (4*a4^3 + 27*a6^2)] in
    [GF(p)]. *)
Theorem curve_from_j_has_invariant j0 c :
  3 < p -> c mod p <> 0 ->
  exists E, curve_from_j p j0 c = Ret E /\ base_field_order E = p
    /\ 0 <= a4 E < p /\ 0 <= a6 E < p
    /\ (4 * a4 E ^ 3 + 27 * a6 E ^ 2) mod p <> 0
    /\ (1728 * (4 * a4 E ^ 3)) mod p
       = (j0 * (4 * a4 E ^ 3 + 27 * a6 E ^ 2)) mod p.
Proof.
  intros H3 Hc. destruct (not_divide_const H3) as (N0 & _ & N27 & N4).
  apply not_divide_mod in Hc.
  unfold curve_from_j, curve_coefficients.
  destruct (Z.eqb_spec (j0 mod p) 0) as [Ej|Ej].
  - cbn [bind]. apply elliptic_curve_accepts; [exact H3| |].
    + replace (4 * 0 ^ 3 + 27 * c ^ 2) with (27 * c ^ Z.of_nat 2)
        by (simpl Z.of_nat; ring).
      apply not_divide_mul; [exact N27 | apply not_divide_pow; exact Hc].
    + assert (E0 : eqm p j0 0) by (unfold eqm; rewrite Ej; reflexivity).
      rewrite E0. replace (1728 * (4 * 0 ^ 3)) with 0 by ring.
      replace (0 * (4 * 0 ^ 3 + 27 * c ^ 2)) with 0 by ring. reflexivity.
  - destruct (Z.eqb_spec (j0 mod p) (1728 mod p)) as [E1|E1].
    + cbn [bind]. apply elliptic_curve_accepts; [exact H3| |].
      * replace (4 * c ^ 3 + 27 * 0 ^ 2) with (4 * c ^ Z.of_nat 3)
          by (simpl Z.of_nat; ring).
        apply not_divide_mul; [exact N4 | apply not_divide_pow; exact Hc].
      * change (eqm p j0 1728) in E1. rewrite E1.
        replace (1728 * (4 * c ^ 3 + 27 * 0 ^ 2)) with (1728 * (4 * c ^ 3))
          by ring.
        reflexivity.
    + assert (Hk : ~ (p | 1728 - j0)).
      { intros H. apply E1. symmetry. apply eqm_divide. exact H. }
      assert (Hj0 : ~ (p | j0)) by (apply not_divide_mod; exact Ej).
      pose proof (proj2 (not_divide_mod (1728 - j0)) Hk) as Hk'.
      destruct (gf_div_spec p (3 * c ^ 2 * j0) (1728 - j0) p_prime Hk')
        as (c4 & -> & _ & H4).
      destruct (gf_div_spec p (2 * c ^ 3 * j0) (1728 - j0) p_prime Hk')
        as (c6 & -> & _ & H6).
      cbn [bind].
      destruct (generic_discriminant j0 c c4 c6 H4 H6) as (Ed & Ej').
      pose proof (not_divide_pow (1728 - j0) 3 Hk) as Hk3.
      simpl Z.of_nat in Hk3.
      apply elliptic_curve_accepts; [exact H3| |].
      * intros H. apply eqm_zero in H.
        assert (Ez : eqm p (186624 * c ^ 6 * j0 ^ 2) 0).
        { rewrite <- Ed, H. replace ((1728 - j0) ^ 3 * 0) with 0 by ring.
          reflexivity. }
        apply eqm_zero in Ez. revert Ez.
        apply not_divide_mul; [apply not_divide_mul; [exact N0|]|].
        -- apply (not_divide_pow c 6 Hc).
        -- apply (not_divide_pow j0 2 Hj0).
      * eapply eqm_cancel; [exact Hk3 | exact Ej'].
Qed.

End Congruences.

Lemma curve_from_j_has_invariant_witness :
  prime 7 /\ 3 < 7 /\ 2 mod 7 <> 0
  /\ exists E, curve_from_j 7 3 2 = Ret E /\ base_field_order E = 7
    /\ 0 <= a4 E < 7 /\ 0 <= a6 E < 7
    /\ (4 * a4 E ^ 3 + 27 * a6 E ^ 2) mod 7 <> 0
    /\ (1728 * (4 * a4 E ^ 3)) mod 7
       = (3 * (4 * a4 E ^ 3 + 27 * a6 E ^ 2)) mod 7.
Proof.
  split; [exact (proj1 (is_prime_spec 7) eq_refl)|].
  split; [lia|]. split; [discriminate|].
  apply (curve_from_j_has_invariant 7 (proj1 (is_prime_spec 7) eq_refl) 3 2);
    [lia | discriminate].
Defined.

(** X12: in characteristic 2 and 3 the construction always fails: whatever
    [j0] and [c] are, [EllipticCurve(GF(p), ...)] is handed a singular
    equation and raises [ArithmeticError]. *)
Theorem curve_from_j_small_characteristic j0 c :
  curve_from_j 2 j0 c = Raise ArithmeticError
  /\ curve_from_j 3 j0 c = Raise ArithmeticError.
Proof.
  assert (S2 : forall c4 c6, elliptic_curve 2 c4 c6 = Raise ArithmeticError).
  { intros c4 c6. unfold elliptic_curve.
    replace (16 * (4 * c4 ^ 3 + 27 * c6 ^ 2))
      with (8 * (4 * c4 ^ 3 + 27 * c6 ^ 2) * 2) by ring.
    rewrite Z.mod_mul by lia. reflexivity. }
  assert (S3 : forall c4 c6, c4 mod 3 = 0 ->
                 elliptic_curve 3 c4 c6 = Raise ArithmeticError).
  { intros c4 c6 H. unfold elliptic_curve.
    apply Z.mod_divide in H; [|lia]. destruct H as [w ->].
    replace (16 * (4 * (w * 3) ^ 3 + 27 * c6 ^ 2))
      with (16 * (36 * w ^ 3 + 9 * c6 ^ 2) * 3) by ring.
    rewrite Z.mod_mul by lia. reflexivity. }
  split; unfold curve_from_j, curve_coefficients, gf_div.
  - destruct (Z.eqb_spec (j0 mod 2) 0) as [E0|E0]; [cbn [bind]; apply S2|].
    destruct (Z.eqb_spec (j0 mod 2) (1728 mod 2)) as [E1|_];
      [change (1728 mod 2) with 0 in E1; contradiction|].
    destruct (Z.eqb_spec ((1728 - j0) mod 2) 0) as [Ek|_];
      [exfalso; revert E0 Ek; Z.to_euclidean_division_equations; lia|].
    cbn [bind]. apply S2.
  - destruct (Z.eqb_spec (j0 mod 3) 0) as [E0|E0];
      [cbn [bind]; apply S3; reflexivity|].
    destruct (Z.eqb_spec (j0 mod 3) (1728 mod 3)) as [E1|_];
      [change (1728 mod 3) with 0 in E1; contradiction|].
    destruct (Z.eqb_spec ((1728 - j0) mod 3) 0) as [Ek|_];
      [exfalso; revert E0 Ek; Z.to_euclidean_division_equations; lia|].
    cbn [bind]. apply S3. rewrite Z.mod_mod by lia.
    replace (3 * c ^ 2 * j0 * gf_inv 3 (1728 - j0))
      with (c ^ 2 * j0 * gf_inv 3 (1728 - j0) * 3) by ring.
    apply Z.mod_mul. lia.
Qed.

End CurveExtras.

(** ** WIP/complex_multiplication.py *)

Module ComplexMultiplicationExtras.
Import ComplexMultiplication ComplexMultiplicationFacts.







Section Generator.

Variable class_polynomial_root : Z -> Z -> outcome Z.
Variable cofactor_point : EllipticCurve -> Z -> outcome (point * Z).




End Generator.


End ComplexMultiplicationExtras.

(** ** The discriminant searches of complex_multiplication.py and
    cocks_pinch.py *)

Module DiscriminantExtras.
Import CurveFacts.

(** [Integer.squarefree_part] divides out a square *)
Lemma squarefree_loop_square : forall fuel d x,
  2 <= d -> 0 < x ->
  0 < squarefree_loop fuel d x
  /\ exists g, 0 < g /\ x = squarefree_loop fuel d x * (g * g).
Proof.
  induction fuel as [|f IH]; intros d x Hd Hx; cbn [squarefree_loop].
  - split; [exact Hx|]. exists 1. split; [lia | ring].
  - destruct (Z.ltb_spec x (d * d)) as [_|Hle].
    + split; [exact Hx|]. exists 1. split; [lia | ring].
    + destruct (Z.eqb_spec (x mod (d * d)) 0) as [E|_]; [|apply IH; lia].
      assert (Hdd : 0 < d * d) by nia.
      assert (Hq : x = d * d * (x / (d * d))).
      { pose proof (Z.div_mod x (d * d) ltac:(lia)). lia. }
      assert (Hqpos : 0 < x / (d * d)) by (apply Z.div_str_pos; lia).
      destruct (IH d (x / (d * d)) Hd Hqpos) as (Hpos & g & Hg & Heq).
      split; [exact Hpos|]. exists (d * g). split; [nia|].
      rewrite Hq at 1. rewrite Heq at 1. ring.
Qed.

Lemma fundamental_discriminant_square D :
  D <> 0 ->
  exists f g, (f = 1 \/ f = 2) /\ 0 < g
    /\ fundamental_discriminant D * (g * g) = D * (f * f)
    /\ (D < 0 -> fundamental_discriminant D < 0).
Proof.
  intros HD.
  destruct (squarefree_loop_square (S (Z.to_nat (Z.abs D))) 2 (Z.abs D)
              ltac:(lia) ltac:(lia)) as (Hpos & g & Hg & Heq).
  assert (Hs : squarefree_part D * (g * g) = D).
  { unfold squarefree_part. rewrite <- Z.mul_assoc, <- Heq.
    rewrite Z.mul_comm. apply Z.abs_sgn. }
  assert (Hneg : D < 0 -> squarefree_part D < 0).
  { intros C. unfold squarefree_part. rewrite Z.sgn_neg by exact C. lia. }
  unfold fundamental_discriminant. cbv zeta.
  destruct (squarefree_part D mod 4 =? 1).
  - exists 1, g. split; [left; reflexivity|]. split; [exact Hg|].
    split; [rewrite Hs; ring | exact Hneg].
  - exists 2, g. split; [right; reflexivity|]. split; [exact Hg|].
    split; [rewrite <- Hs at 2; ring | intros C; specialize (Hneg C); lia].
Qed.

Section OddPrime.

Variable r : Z.
Hypothesis r_prime : prime r.
Hypothesis r_odd : 2 < r.

#[local] Instance eqm_r_equivalence : Equivalence (eqm r) := eqm_setoid r.
#[local] Instance mul_eqm_r : Proper (eqm r ==> eqm r ==> eqm r) Z.mul := Zmult_eqm r.

Lemma legendre_one_iff a :
  legendre a r = 1 <-> a mod r <> 0 /\ exists t, (t * t) mod r = a mod r.
Proof.
  unfold legendre. destruct (Z.eqb_spec (a mod r) 0) as [E|E].
  - split; [discriminate | tauto].
  - destruct (existsb _ _) eqn:Ex.
    + split; [intros _ | reflexivity]. split; [exact E|].
      apply existsb_exists in Ex. destruct Ex as (t & _ & Ht).
      apply Z.eqb_eq in Ht. exists t. exact Ht.
    + split; [discriminate|]. intros (_ & t & Ht). exfalso.
      assert (C : existsb (fun t => (t * t) mod r =? a mod r) (range 1 r) = true).
      { apply existsb_exists. exists (t mod r). split.
        - apply in_range. pose proof (Z.mod_pos_bound t r ltac:(lia)).
          destruct (Z.eq_dec (t mod r) 0) as [C|]; [|lia].
          exfalso. apply E. rewrite <- Ht, Z.mul_mod, C by lia. reflexivity.
        - apply Z.eqb_eq. rewrite <- Z.mul_mod by lia. exact Ht. }
      congruence.
Qed.

Lemma legendre_scaled A D f g :
  A * (g * g) = D * (f * f) -> ~ (r | f) ->
  legendre D r = 1 -> legendre A r = 1.
Proof.
  intros Heq Hf HD. apply legendre_one_iff in HD.
  destruct HD as (Hn & t & Ht). apply legendre_one_iff.
  assert (HnD : ~ (r | D)) by (rewrite <- Z.mod_divide by lia; exact Hn).
  assert (Hrhs : ~ (r | D * (f * f))).
  { intros C. apply prime_mult in C; [|exact r_prime].
    destruct C as [C|C]; [contradiction|].
    apply prime_mult in C; [|exact r_prime]. tauto. }
  assert (Hg : g mod r <> 0).
  { intros C. apply Z.mod_divide in C; [|lia]. apply Hrhs. rewrite <- Heq.
    apply Z.divide_mul_r, Z.divide_mul_l. exact C. }
  split.
  - intros C. apply Z.mod_divide in C; [|lia]. apply Hrhs. rewrite <- Heq.
    apply Z.divide_mul_l. exact C.
  - pose proof (gf_inv_spec r g r_prime Hg) as Hi.
    set (gi := gf_inv r g) in *.
    assert (E1 : eqm r (g * gi) 1).
    { unfold eqm. rewrite Hi. symmetry. apply Z.mod_1_l. lia. }
    exists (t * f * gi). change (eqm r (t * f * gi * (t * f * gi)) A).
    replace (t * f * gi * (t * f * gi)) with (t * t * ((f * f) * (gi * gi)))
      by ring.
    change (eqm r (t * t) D) in Ht. rewrite Ht.
    replace (D * (f * f * (gi * gi))) with (D * (f * f) * (gi * gi)) by ring.
    rewrite <- Heq.
    replace (A * (g * g) * (gi * gi)) with (A * ((g * gi) * (g * gi))) by ring.
    rewrite E1. replace (A * (1 * 1)) with A by ring. reflexivity.
Qed.

Lemma kronecker_legendre a : kronecker a r = legendre a r.
Proof.
  rewrite CornacchiaFacts.kronecker_prime by exact r_prime.
  unfold prime_symbol. destruct (Z.eqb_spec r 2); [lia | reflexivity].
Qed.

(** replacing an accepted [D] by its fundamental discriminant keeps the
    symbol *)
Lemma fundamental_discriminant_keeps_symbol D :
  kronecker D r = 1 ->
  kronecker (fundamental_discriminant D) r = 1
  /\ (D < 0 -> fundamental_discriminant D < 0).
Proof.
  intros Hk. rewrite kronecker_legendre in *.
  assert (HD : D <> 0).
  { intros ->. unfold legendre in Hk. rewrite Z.mod_0_l in Hk by lia.
    discriminate. }
  destruct (fundamental_discriminant_square D HD)
    as (f & g & Hf & Hg & Heq & Hneg).
  split; [|exact Hneg].
  eapply legendre_scaled; [exact Heq| |exact Hk].
  intros C. apply Z.divide_pos_le in C; lia.
Qed.

Lemma candidate_nonpos k : candidate k r <= 0.
Proof.
  unfold candidate. pose proof (Z.mod_pos_bound k (Z.abs r) ltac:(lia)). lia.
Qed.

Lemma accepted_candidate l D :
  first_accepted r l = Some D -> (forall x, In x l -> x <= 0) ->
  kronecker (fundamental_discriminant D) r = 1
  /\ fundamental_discriminant D < 0.
Proof.
  intros H Hl. apply find_some in H. destruct H as [Hin Hk].
  apply Z.eqb_eq in Hk. specialize (Hl D Hin).
  destruct (fundamental_discriminant_keeps_symbol D Hk) as (Hfd & Hneg).
  split; [exact Hfd|]. apply Hneg.
  destruct (Z.eq_dec D 0) as [->|]; [|lia].
  rewrite kronecker_legendre in Hk. unfold legendre in Hk.
  rewrite Z.mod_0_l in Hk by lia. discriminate.
Qed.

Lemma none_accepted l :
  first_accepted r l = None -> forall x, In x l -> kronecker x r <> 1.
Proof.
  intros H x Hin. pose proof (find_none _ _ H x Hin) as Hn.
  apply Z.eqb_neq in Hn. exact Hn.
Qed.

Lemma fundamental_discriminant_mod_4 D :
  fundamental_discriminant D mod 4 = 0 \/ fundamental_discriminant D mod 4 = 1.
Proof.
  unfold fundamental_discriminant. cbv zeta.
  destruct (Z.eqb_spec (squarefree_part D mod 4) 1) as [E|_];
    [right; exact E | left].
  rewrite Z.mul_comm. apply Z.mod_mul. lia.
Qed.

(** X17: for an odd prime modulus the second test of the symbol cannot
    fail: the CM search never returns the sentinel 0 and the Cocks-Pinch
    search never raises its assertion error.  Both return a negative
    discriminant [D = 0 or 1 (mod 4)] with [(D/r) = 1], or run out of
    samples when no sample is accepted. *)
Theorem discriminant_search_odd_prime rnd :
  match ComplexMultiplication.choose_random_fundamental_discriminant r rnd with
  | Ret D => D < 0 /\ kronecker D r = 1 /\ (D mod 4 = 0 \/ D mod 4 = 1)
  | Raise _ => False
  | Timeout => forall k, In k rnd -> kronecker (candidate k r) r <> 1
  end
  /\
  match CocksPinch.find_fundamental_discriminant r rnd with
  | Ret D => D < 0 /\ kronecker D r = 1 /\ (D mod 4 = 0 \/ D mod 4 = 1)
  | Raise _ => False
  | Timeout => forall k, In k rnd -> kronecker (candidate k r) r <> 1
  end.
Proof.
  split.
  - unfold ComplexMultiplication.choose_random_fundamental_discriminant.
    destruct rnd as [|k rnd]; [intros k []|].
    rewrite DiscriminantFacts.cm_resample_first_accepted.
    destruct (first_accepted r _) as [D|] eqn:Ef; cbn [bind].
    + destruct (accepted_candidate _ _ Ef) as (Hk & Hneg).
      { intros x [<-|Hin]; [apply candidate_nonpos|].
        apply in_map_iff in Hin. destruct Hin as (k' & <- & _).
        apply candidate_nonpos. }
      rewrite Hk. cbn [Z.eqb Pos.eqb negb].
      split; [exact Hneg|]. split; [exact Hk|].
      apply fundamental_discriminant_mod_4.
    + intros k' Hin. apply (none_accepted _ Ef).
      exact (in_map (fun x => candidate x r) (k :: rnd) k' Hin).
  - unfold CocksPinch.find_fundamental_discriminant.
    rewrite DiscriminantFacts.cp_resample_first_accepted.
    destruct (first_accepted r _) as [D|] eqn:Ef; cbn [bind].
    + destruct (accepted_candidate _ _ Ef) as (Hk & Hneg).
      { intros x [<-|Hin]; [lia|].
        apply in_map_iff in Hin. destruct Hin as (k' & <- & _).
        apply candidate_nonpos. }
      rewrite Hk. cbn [Z.eqb Pos.eqb assert bind].
      split; [exact Hneg|]. split; [exact Hk|].
      apply fundamental_discriminant_mod_4.
    + intros k' Hin. apply (none_accepted _ Ef). right.
      exact (in_map (fun x => candidate x r) rnd k' Hin).
Qed.

End OddPrime.

Lemma discriminant_search_odd_prime_witness :
  prime 7 /\ 2 < 7
  /\ ComplexMultiplication.choose_random_fundamental_discriminant 7 [1; 3]
     = Ret (-3)
  /\ CocksPinch.find_fundamental_discriminant 7 [1; 3] = Ret (-3)
  /\ match ComplexMultiplication.choose_random_fundamental_discriminant 7 [1; 3] with
     | Ret D => D < 0 /\ kronecker D 7 = 1 /\ (D mod 4 = 0 \/ D mod 4 = 1)
     | Raise _ => False
     | Timeout => forall k, In k [1; 3] -> kronecker (candidate k 7) 7 <> 1
     end
  /\ match CocksPinch.find_fundamental_discriminant 7 [1; 3] with
     | Ret D => D < 0 /\ kronecker D 7 = 1 /\ (D mod 4 = 0 \/ D mod 4 = 1)
     | Raise _ => False
     | Timeout => forall k, In k [1; 3] -> kronecker (candidate k 7) 7 <> 1
     end.
Proof.
  split; [exact (proj1 (is_prime_spec 7) eq_refl)|]. split; [lia|].
  split; [reflexivity|]. split; [reflexivity|].
  apply (discriminant_search_odd_prime 7 (proj1 (is_prime_spec 7) eq_refl));
    lia.
Defined.

End DiscriminantExtras.
